(** * Tree-Data-Structures: BSTree and AVLTree

    A shallow embedding of [TreeBase.hpp], [BSTree.hpp] and [AVLTree.hpp].

    Modelling decisions.
    - The key type [T] of the templates is instantiated to integers
      ([trees::AVLTree<int>] of the README); keys are only compared with
      [<], [>] and [==], never computed with.
    - A node owns its children exclusively and has no parent link, so the
      node graph reachable from [root] is a finite tree: it is an inductive
      type, [Leaf] standing for [nullptr].
    - The node template parameter [N] of [BSTree<T, N>] becomes the type [I]
      of the fields a node carries besides [key], [left] and [right]:
      nothing for [BSTNode], the cached [height] for [AVLNode].
    - A procedure taking [Node *&node] becomes a function from the tree held
      in that slot to the result paired with the new content of the slot.
    - A reference returned by [findMax]/[findMin] becomes a pair of
      functions: one reads the slot, one writes it.
    - In [AVLTree.hpp] a dereference of a null pointer is an error, [None];
      the [int] heights are unbounded integers (a height is bounded by the
      depth of the tree, far from the range of [int]).
    - [print] appends the keys to a stream; the stream is the list of keys
      written. *)

From Stdlib Require Import ZArith List Lia Bool Sorted Permutation Wellfounded.
Import ListNotations.
Local Open Scope Z_scope.

(** The key type. *)
Definition T : Type := Z.

(** [base::BSTNode<T, N>]: [key], [left], [right], and the fields [info]
    that the concrete node type adds. *)
Inductive tree (I : Type) : Type :=
| Leaf : tree I
| Node (left : tree I) (key : T) (info : I) (right : tree I) : tree I.

Arguments Leaf {I}.
Arguments Node {I} left key info right.

(** What the constructor [Node(key)] puts in the additional fields. *)
Class NodeKind (I : Type) : Type := new_info : I.

(** [BSTNode]: no additional field. *)
#[export] Instance BSTNode : NodeKind unit := tt.

(** [AVLNode]: [int height = 1]. *)
#[export] Instance AVLNode : NodeKind Z := 1.

(** [enum eOrder] and [enum eRemove]. *)
Inductive eOrder : Type := INORDER | PREORDER | POSTORDER.
Inductive eRemove : Type := COPY | FUSION.

(** ** BSTree.hpp *)
Module BSTree.
Section Generic.
Context {I : Type} {NK : NodeKind I}.

Local Abbreviation tree := (tree I).

(** [Tree::isEmpty]. *)
Definition isEmpty (root : tree) : bool :=
  match root with Leaf => true | Node _ _ _ _ => false end.

(** [destroy]: the keys of the nodes deleted, in the order of deletion. *)
Fixpoint destroy (root : tree) : list T :=
  match root with
  | Leaf => []
  | Node l k _ r => destroy l ++ destroy r ++ [k]
  end.

(** [clear]: [destroy(root); root = nullptr]. *)
Definition clear (root : tree) : list T * tree := (destroy root, Leaf).

(** [get(Node*, T&)]: the key pointed to, [None] for [nullptr]. *)
Fixpoint get (node : tree) (key : T) : option T :=
  match node with
  | Leaf => None
  | Node l k _ r =>
      if key <? k then get l key
      else if key >? k then get r key
      else Some k
  end.

(** [getMax]: the loop [while (max->right != nullptr) max = max->right]. *)
Fixpoint getMax (root : tree) : option T :=
  match root with
  | Leaf => None
  | Node _ k _ r =>
      match r with
      | Leaf => Some k
      | Node _ _ _ _ => getMax r
      end
  end.

(** [getMin]. *)
Fixpoint getMin (root : tree) : option T :=
  match root with
  | Leaf => None
  | Node l k _ _ =>
      match l with
      | Leaf => Some k
      | Node _ _ _ _ => getMin l
      end
  end.

(** [insert(Node*&, T&)]. *)
Fixpoint insert (node : tree) (key : T) : bool * tree :=
  match node with
  | Leaf => (true, Node Leaf key new_info Leaf)
  | Node l k i r =>
      if key <? k then
        let (b, l') := insert l key in (b, Node l' k i r)
      else if key >? k then
        let (b, r') := insert r key in (b, Node l k i r')
      else (false, node)
  end.

(** [findMax(Node*&)] returns a reference to the slot that holds the node of
    the greatest key. [findMax] reads that slot; [set_findMax root s] is the
    tree after [s] was assigned through the reference. The callers pass a
    non-null [root]; on [nullptr] the source dereferences it. *)
Fixpoint findMax (root : tree) : tree :=
  match root with
  | Leaf => Leaf
  | Node _ _ _ r =>
      match r with
      | Leaf => root
      | Node _ _ _ _ => findMax r
      end
  end.

Fixpoint set_findMax (root s : tree) : tree :=
  match root with
  | Leaf => s
  | Node l k i r =>
      match r with
      | Leaf => s
      | Node _ _ _ _ => Node l k i (set_findMax r s)
      end
  end.

(** [findMin(Node*&)], likewise. *)
Fixpoint findMin (root : tree) : tree :=
  match root with
  | Leaf => Leaf
  | Node l _ _ _ =>
      match l with
      | Leaf => root
      | Node _ _ _ _ => findMin l
      end
  end.

Fixpoint set_findMin (root s : tree) : tree :=
  match root with
  | Leaf => s
  | Node l k i r =>
      match l with
      | Leaf => s
      | Node _ _ _ _ => Node (set_findMin l s) k i r
      end
  end.

(** [removeByCopy]. In the branch [node->left != nullptr] the key of the
    greatest node of the left subtree is copied into [node] and that node is
    replaced by its left child. *)
Fixpoint removeByCopy (node : tree) (key : T) : option T * tree :=
  match node with
  | Leaf => (None, Leaf)
  | Node l k i r =>
      if k >? key then
        let (res, l') := removeByCopy l key in (res, Node l' k i r)
      else if k <? key then
        let (res, r') := removeByCopy r key in (res, Node l k i r')
      else
        match l with
        | Node _ _ _ _ =>
            match findMax l with
            | Node ml mk _ _ => (Some k, Node (set_findMax l ml) mk i r)
            | Leaf => (Some k, node)
            end
        | Leaf => (Some k, r)
        end
  end.

(** [removeByFusion]. In the branch [node->left != nullptr] the right
    subtree of [node] becomes the right child of the greatest node of the
    left subtree, and the left subtree takes the place of [node]. *)
Fixpoint removeByFusion (node : tree) (key : T) : option T * tree :=
  match node with
  | Leaf => (None, Leaf)
  | Node l k i r =>
      if k >? key then
        let (res, l') := removeByFusion l key in (res, Node l' k i r)
      else if k <? key then
        let (res, r') := removeByFusion r key in (res, Node l k i r')
      else
        match l with
        | Node _ _ _ _ =>
            match findMax l with
            | Node ml mk mi _ => (Some k, set_findMax l (Node ml mk mi r))
            | Leaf => (Some k, l)
            end
        | Leaf => (Some k, r)
        end
  end.

(** [remove(T key, eRemove mode)] and [remove(T key)]. *)
Definition remove_mode (root : tree) (key : T) (mode : eRemove)
  : option T * tree :=
  match mode with
  | COPY => removeByCopy root key
  | FUSION => removeByFusion root key
  end.

Definition remove (root : tree) (key : T) : option T * tree :=
  remove_mode root key COPY.

(** [removeMax]: [removeByFusion(max, max->key)] on the slot [findMax(root)]. *)
Definition removeMax (root : tree) : option T * tree :=
  match root with
  | Leaf => (None, Leaf)
  | Node _ _ _ _ =>
      match findMax root with
      | Node _ mk _ _ as max =>
          let (res, max') := removeByFusion max mk in
          (res, set_findMax root max')
      | Leaf => (None, root)
      end
  end.

(** [removeMin]. *)
Definition removeMin (root : tree) : option T * tree :=
  match root with
  | Leaf => (None, Leaf)
  | Node _ _ _ _ =>
      match findMin root with
      | Node _ mk _ _ as min =>
          let (res, min') := removeByFusion min mk in
          (res, set_findMin root min')
      | Leaf => (None, root)
      end
  end.

(** [inorder], [preorder], [postorder]: the keys written to the stream. *)
Fixpoint inorder (node : tree) : list T :=
  match node with
  | Leaf => []
  | Node l k _ r => inorder l ++ k :: inorder r
  end.

Fixpoint preorder (node : tree) : list T :=
  match node with
  | Leaf => []
  | Node l k _ r => k :: preorder l ++ preorder r
  end.

Fixpoint postorder (node : tree) : list T :=
  match node with
  | Leaf => []
  | Node l k _ r => postorder l ++ postorder r ++ [k]
  end.

(** [print]. *)
Definition print (root : tree) (order : eOrder) : list T :=
  match order with
  | INORDER => inorder root
  | PREORDER => preorder root
  | POSTORDER => postorder root
  end.

(** [operator<<(BSTree&, T)], chained: [bst << k1 << k2 << ...]. *)
Definition insert_all (root : tree) (keys : list T) : tree :=
  fold_left (fun t k => snd (insert t k)) keys root.

End Generic.
End BSTree.

(** ** AVLTree.hpp *)
Module AVLTree.

Abbreviation avl := (tree Z).

(** The idiom [node ? node->height : 0]. *)
Definition height_of (node : avl) : Z :=
  match node with Leaf => 0 | Node _ _ h _ => h end.

(** [AVLNode::updateHeight]: the new value of the field [height]. *)
Definition updateHeight (l r : avl) : Z :=
  let leftH := height_of l in
  let rightH := height_of r in
  (if leftH >? rightH then leftH else rightH) + 1.

(** [bFactor(Node* node)]: dereferences [node]. *)
Definition bFactor (node : avl) : option Z :=
  match node with
  | Leaf => None
  | Node l _ _ r => Some (height_of l - height_of r)
  end.

(** [rotateLeft(Node*&)]: dereferences [node] and [node->right]. The heights
    of the old root, now the left child, and then of the new root are
    recomputed. *)
Definition rotateLeft (node : avl) : option avl :=
  match node with
  | Node l k _ (Node rl rk _ rr) =>
      let n := Node l k (updateHeight l rl) rl in
      Some (Node n rk (updateHeight n rr) rr)
  | _ => None
  end.

(** [rotateRight(Node*&)]: dereferences [node] and [node->left]. *)
Definition rotateRight (node : avl) : option avl :=
  match node with
  | Node (Node ll lk _ lr) k _ r =>
      let n := Node lr k (updateHeight lr r) r in
      Some (Node ll lk (updateHeight ll n) n)
  | _ => None
  end.

(** [balance(Node*&)]. *)
Definition balance (node : avl) : option avl :=
  match node with
  | Leaf => None
  | Node l k _ r =>
      let h := updateHeight l r in
      match bFactor (Node l k h r) with
      | None => None
      | Some bf =>
          if bf =? 2 then
            match bFactor l with
            | None => None
            | Some bl =>
                if bl <? 0 then
                  match rotateLeft l with
                  | None => None
                  | Some l' => rotateRight (Node l' k h r)
                  end
                else rotateRight (Node l k h r)
            end
          else if bf =? -2 then
            match bFactor r with
            | None => None
            | Some br =>
                if br >? 0 then
                  match rotateRight r with
                  | None => None
                  | Some r' => rotateLeft (Node l k h r')
                  end
                else rotateLeft (Node l k h r)
            end
          else Some (Node l k h r)
      end
  end.

(** [insert(Node*&, T&)], the override. *)
Fixpoint insert (node : avl) (key : T) : option (bool * avl) :=
  match node with
  | Leaf => Some (true, Node Leaf key new_info Leaf)
  | Node l k h r =>
      if key =? k then Some (false, node)
      else if key <? k then
        match insert l key with
        | None => None
        | Some (false, l') => Some (false, Node l' k h r)
        | Some (true, l') =>
            match balance (Node l' k h r) with
            | None => None
            | Some n => Some (true, n)
            end
        end
      else
        match insert r key with
        | None => None
        | Some (false, r') => Some (false, Node l k h r')
        | Some (true, r') =>
            match balance (Node l k h r') with
            | None => None
            | Some n => Some (true, n)
            end
        end
  end.

(** [pullMax(Node*&)]: the detached node and the new content of the slot. *)
Fixpoint pullMax (node : avl) : option (avl * avl) :=
  match node with
  | Leaf => None
  | Node l k h r =>
      match r with
      | Node _ _ _ _ =>
          match pullMax r with
          | None => None
          | Some (max, r') =>
              match balance (Node l k h r') with
              | None => None
              | Some n => Some (max, n)
              end
          end
      | Leaf => Some (node, l)
      end
  end.

(** [remove(Node*&, T&)]. *)
Fixpoint remove (node : avl) (key : T) : option (option T * avl) :=
  match node with
  | Leaf => Some (None, Leaf)
  | Node l k h r =>
      if key <? k then
        match remove l key with
        | None => None
        | Some (None, l') => Some (None, Node l' k h r)
        | Some (Some x, l') =>
            match balance (Node l' k h r) with
            | None => None
            | Some n => Some (Some x, n)
            end
        end
      else if key >? k then
        match remove r key with
        | None => None
        | Some (None, r') => Some (None, Node l k h r')
        | Some (Some x, r') =>
            match balance (Node l k h r') with
            | None => None
            | Some n => Some (Some x, n)
            end
        end
      else
        match l with
        | Node _ _ _ _ =>
            match pullMax l with
            | None => None
            | Some (Leaf, _) => None
            | Some (Node _ mk _ _, l') =>
                match balance (Node l' mk h r) with
                | None => None
                | Some n => Some (Some k, n)
                end
            end
        | Leaf => Some (Some k, r)
        end
  end.

(** [removeMax]: [remove(max, max->key)] on the slot [Base::findMax(root)]. *)
Definition removeMax (root : avl) : option (option T * avl) :=
  match root with
  | Leaf => Some (None, Leaf)
  | Node _ _ _ _ =>
      match BSTree.findMax root with
      | Leaf => None
      | Node _ mk _ _ as max =>
          match remove max mk with
          | None => None
          | Some (res, max') => Some (res, BSTree.set_findMax root max')
          end
      end
  end.

(** [removeMin]: [remove(min, min->key)] on the slot [Base::findMin(root)]. *)
Definition removeMin (root : avl) : option (option T * avl) :=
  match root with
  | Leaf => Some (None, Leaf)
  | Node _ _ _ _ =>
      match BSTree.findMin root with
      | Leaf => None
      | Node _ mk _ _ as min =>
          match remove min mk with
          | None => None
          | Some (res, min') => Some (res, BSTree.set_findMin root min')
          end
      end
  end.

(** [operator<<(AVLTree&, T)], chained. *)
Fixpoint insert_all (root : avl) (keys : list T) : option avl :=
  match keys with
  | [] => Some root
  | k :: ks =>
      match insert root k with
      | None => None
      | Some (_, root') => insert_all root' ks
      end
  end.

End AVLTree.

(** ** TreeBase.hpp: the operators of [base::Tree] *)
Module TreeBase.
Section Generic.
Context {I : Type}.

(** [operator bool]: [root != nullptr]. *)
Definition operator_bool (root : tree I) : bool :=
  match root with Leaf => false | Node _ _ _ _ => true end.

(** [operator[]]: [get(key)]. *)
Definition operator_index (root : tree I) (key : T) : option T :=
  BSTree.get root key.

End Generic.
End TreeBase.

(** ** Invariants and measures *)
Section Invariants.
Context {I : Type}.

(** The BST ordering of the data model: the keys of the left subtree are
    less than the key of the node, those of the right subtree greater. *)
Fixpoint bst (t : tree I) : Prop :=
  match t with
  | Leaf => True
  | Node l k _ r =>
      bst l /\ bst r /\
      Forall (fun x => x < k) (BSTree.inorder l) /\
      Forall (fun x => k < x) (BSTree.inorder r)
  end.

(** The recursive height of the data model; an absent child has height 0. *)
Fixpoint height (t : tree I) : Z :=
  match t with
  | Leaf => 0
  | Node l _ _ r => 1 + Z.max (height l) (height r)
  end.

(** Number of nodes. *)
Fixpoint size (t : tree I) : nat :=
  match t with
  | Leaf => O
  | Node l _ _ r => S (size l + size r)
  end.

(** The descent of [removeByCopy] and [removeByFusion] to the node of [key]:
    the links followed, and the subtree found at the end of a path. *)
Inductive dir : Type := GoLeft | GoRight.

Fixpoint path_to (node : tree I) (key : T) : list dir :=
  match node with
  | Leaf => []
  | Node l k _ r =>
      if k >? key then GoLeft :: path_to l key
      else if k <? key then GoRight :: path_to r key
      else []
  end.

Fixpoint at_path (p : list dir) (t : tree I) : tree I :=
  match p, t with
  | [], _ => t
  | _ :: _, Leaf => Leaf
  | GoLeft :: p', Node l _ _ _ => at_path p' l
  | GoRight :: p', Node _ _ _ r => at_path p' r
  end.

Definition left_of (t : tree I) : tree I :=
  match t with Leaf => Leaf | Node l _ _ _ => l end.

Definition right_of (t : tree I) : tree I :=
  match t with Leaf => Leaf | Node _ _ _ r => r end.

(** Number of links from the root to the node of [key], as [get] descends. *)
Fixpoint depth_of (node : tree I) (key : T) : option nat :=
  match node with
  | Leaf => None
  | Node l k _ r =>
      if key <? k then option_map S (depth_of l key)
      else if key >? k then option_map S (depth_of r key)
      else Some O
  end.


(** The child relation that every recursive call and loop step follows. *)
Inductive child : tree I -> tree I -> Prop :=
| child_left : forall l k i r, child l (Node l k i r)
| child_right : forall l k i r, child r (Node l k i r).

End Invariants.

(** The AVL invariant of the data model: every cached height is the
    recursive height, and the heights of the two children of a node differ
    by at most one. *)
Fixpoint avl_inv (t : tree Z) : Prop :=
  match t with
  | Leaf => True
  | Node l _ h r =>
      avl_inv l /\ avl_inv r /\
      h = 1 + Z.max (height l) (height r) /\
      -1 <= height l - height r <= 1
  end.

(** The part of it that concerns the cached heights alone. *)
Fixpoint cached_ok (t : tree Z) : Prop :=
  match t with
  | Leaf => True
  | Node l _ h r =>
      cached_ok l /\ cached_ok r /\ h = 1 + Z.max (height l) (height r)
  end.

(** Every cached height is at least 1: what [updateHeight] and the
    constructor establish whatever the shape of the tree. *)
Fixpoint hpos (t : tree Z) : Prop :=
  match t with
  | Leaf => True
  | Node l _ h r => hpos l /\ hpos r /\ 1 <= h
  end.

(** ** Client loops *)

(** The drain loop on a BSTree: [removeMin] then [removeMax], repeated while
    the tree is not empty; at most [rounds] rounds. The keys returned by
    [removeMin], those returned by [removeMax], and the tree left. *)
Fixpoint drain {I : Type} (rounds : nat) (root : tree I)
  : list T * list T * tree I :=
  match rounds with
  | O => ([], [], root)
  | S n =>
      if BSTree.isEmpty root then ([], [], root)
      else
        match BSTree.removeMin root with
        | (None, root1) => ([], [], root1)
        | (Some a, root1) =>
            match BSTree.removeMax root1 with
            | (None, root2) => ([a], [], root2)
            | (Some b, root2) =>
                let '(mins, maxs, t) := drain n root2 in
                (a :: mins, b :: maxs, t)
            end
        end
  end.

(** The same loop on an AVLTree. *)
Fixpoint avl_drain (rounds : nat) (root : tree Z)
  : option (list T * list T * tree Z) :=
  match rounds with
  | O => Some ([], [], root)
  | S n =>
      if BSTree.isEmpty root then Some ([], [], root)
      else
        match AVLTree.removeMin root with
        | None => None
        | Some (None, root1) => Some ([], [], root1)
        | Some (Some a, root1) =>
            match AVLTree.removeMax root1 with
            | None => None
            | Some (None, root2) => Some ([a], [], root2)
            | Some (Some b, root2) =>
                match avl_drain n root2 with
                | None => None
                | Some (mins, maxs, t) => Some (a :: mins, b :: maxs, t)
                end
            end
        end
  end.

(** ** The claim on the depth of the subtrees after a removal by fusion *)

(** At the place of the removed node, neither the left nor the right subtree
    is deeper after [removeByFusion] than after [removeByCopy]. *)
Definition fusion_not_deeper {I : Type} (t : tree I) (key : T) : Prop :=
  let p := path_to t key in
  let f := at_path p (snd (BSTree.removeByFusion t key)) in
  let c := at_path p (snd (BSTree.removeByCopy t key)) in
  height (left_of f) <= height (left_of c) /\
  height (right_of f) <= height (right_of c).

(** ** Recursion under a bound on the depth of the call stack

    The procedures again, each call and each loop step taking one unit of
    [fuel]; the outer [None] means that the bound was reached. *)
Module Bounded.
Section Generic.
Context {I : Type} {NK : NodeKind I}.

Local Abbreviation tree := (tree I).

Fixpoint get (fuel : nat) (node : tree) (key : T) : option (option T) :=
  match fuel with
  | O => None
  | S n =>
      match node with
      | Leaf => Some None
      | Node l k _ r =>
          if key <? k then get n l key
          else if key >? k then get n r key
          else Some (Some k)
      end
  end.

(** The loop of [getMax], started at [max = root]. *)
Fixpoint getMax_loop (fuel : nat) (max : tree) : option (option T) :=
  match max with
  | Leaf => Some None
  | Node _ k _ r =>
      match r with
      | Leaf => Some (Some k)
      | Node _ _ _ _ =>
          match fuel with
          | O => None
          | S n => getMax_loop n r
          end
      end
  end.

Definition getMax (fuel : nat) (root : tree) : option (option T) :=
  match root with
  | Leaf => Some None
  | Node _ _ _ _ => getMax_loop fuel root
  end.

Fixpoint getMin_loop (fuel : nat) (min : tree) : option (option T) :=
  match min with
  | Leaf => Some None
  | Node l k _ _ =>
      match l with
      | Leaf => Some (Some k)
      | Node _ _ _ _ =>
          match fuel with
          | O => None
          | S n => getMin_loop n l
          end
      end
  end.

Definition getMin (fuel : nat) (root : tree) : option (option T) :=
  match root with
  | Leaf => Some None
  | Node _ _ _ _ => getMin_loop fuel root
  end.

Fixpoint insert (fuel : nat) (node : tree) (key : T)
  : option (bool * tree) :=
  match fuel with
  | O => None
  | S n =>
      match node with
      | Leaf => Some (true, Node Leaf key new_info Leaf)
      | Node l k i r =>
          if key <? k then
            match insert n l key with
            | None => None
            | Some (b, l') => Some (b, Node l' k i r)
            end
          else if key >? k then
            match insert n r key with
            | None => None
            | Some (b, r') => Some (b, Node l k i r')
            end
          else Some (false, node)
      end
  end.

Fixpoint findMax (fuel : nat) (root : tree) : option tree :=
  match fuel with
  | O => None
  | S n =>
      match root with
      | Leaf => Some Leaf
      | Node _ _ _ r =>
          match r with
          | Leaf => Some root
          | Node _ _ _ _ => findMax n r
          end
      end
  end.

Fixpoint findMin (fuel : nat) (root : tree) : option tree :=
  match fuel with
  | O => None
  | S n =>
      match root with
      | Leaf => Some Leaf
      | Node l _ _ _ =>
          match l with
          | Leaf => Some root
          | Node _ _ _ _ => findMin n l
          end
      end
  end.

Fixpoint removeByCopy (fuel : nat) (node : tree) (key : T)
  : option (option T * tree) :=
  match fuel with
  | O => None
  | S n =>
      match node with
      | Leaf => Some (None, Leaf)
      | Node l k i r =>
          if k >? key then
            match removeByCopy n l key with
            | None => None
            | Some (res, l') => Some (res, Node l' k i r)
            end
          else if k <? key then
            match removeByCopy n r key with
            | None => None
            | Some (res, r') => Some (res, Node l k i r')
            end
          else
            match l with
            | Node _ _ _ _ =>
                match findMax n l with
                | None => None
                | Some (Node ml mk _ _) =>
                    Some (Some k, Node (BSTree.set_findMax l ml) mk i r)
                | Some Leaf => Some (Some k, node)
                end
            | Leaf => Some (Some k, r)
            end
      end
  end.

Fixpoint removeByFusion (fuel : nat) (node : tree) (key : T)
  : option (option T * tree) :=
  match fuel with
  | O => None
  | S n =>
      match node with
      | Leaf => Some (None, Leaf)
      | Node l k i r =>
          if k >? key then
            match removeByFusion n l key with
            | None => None
            | Some (res, l') => Some (res, Node l' k i r)
            end
          else if k <? key then
            match removeByFusion n r key with
            | None => None
            | Some (res, r') => Some (res, Node l k i r')
            end
          else
            match l with
            | Node _ _ _ _ =>
                match findMax n l with
                | None => None
                | Some (Node ml mk mi _) =>
                    Some (Some k, BSTree.set_findMax l (Node ml mk mi r))
                | Some Leaf => Some (Some k, l)
                end
            | Leaf => Some (Some k, r)
            end
      end
  end.

Definition removeMax (fuel : nat) (root : tree) : option (option T * tree) :=
  match root with
  | Leaf => Some (None, Leaf)
  | Node _ _ _ _ =>
      match findMax fuel root with
      | None => None
      | Some (Node _ mk _ _ as max) =>
          match removeByFusion fuel max mk with
          | None => None
          | Some (res, max') => Some (res, BSTree.set_findMax root max')
          end
      | Some Leaf => Some (None, root)
      end
  end.

Definition removeMin (fuel : nat) (root : tree) : option (option T * tree) :=
  match root with
  | Leaf => Some (None, Leaf)
  | Node _ _ _ _ =>
      match findMin fuel root with
      | None => None
      | Some (Node _ mk _ _ as min) =>
          match removeByFusion fuel min mk with
          | None => None
          | Some (res, min') => Some (res, BSTree.set_findMin root min')
          end
      | Some Leaf => Some (None, root)
      end
  end.

Fixpoint destroy (fuel : nat) (root : tree) : option (list T) :=
  match fuel with
  | O => None
  | S n =>
      match root with
      | Leaf => Some []
      | Node l k _ r =>
          match destroy n l, destroy n r with
          | Some a, Some b => Some (a ++ b ++ [k])
          | _, _ => None
          end
      end
  end.

Definition clear (fuel : nat) (root : tree) : option (list T * tree) :=
  match destroy fuel root with
  | None => None
  | Some ks => Some (ks, Leaf)
  end.

Fixpoint inorder (fuel : nat) (node : tree) : option (list T) :=
  match fuel with
  | O => None
  | S n =>
      match node with
      | Leaf => Some []
      | Node l k _ r =>
          match inorder n l, inorder n r with
          | Some a, Some b => Some (a ++ k :: b)
          | _, _ => None
          end
      end
  end.

Fixpoint preorder (fuel : nat) (node : tree) : option (list T) :=
  match fuel with
  | O => None
  | S n =>
      match node with
      | Leaf => Some []
      | Node l k _ r =>
          match preorder n l, preorder n r with
          | Some a, Some b => Some (k :: a ++ b)
          | _, _ => None
          end
      end
  end.

Fixpoint postorder (fuel : nat) (node : tree) : option (list T) :=
  match fuel with
  | O => None
  | S n =>
      match node with
      | Leaf => Some []
      | Node l k _ r =>
          match postorder n l, postorder n r with
          | Some a, Some b => Some (a ++ b ++ [k])
          | _, _ => None
          end
      end
  end.

Definition print (fuel : nat) (root : tree) (order : eOrder)
  : option (list T) :=
  match order with
  | INORDER => inorder fuel root
  | PREORDER => preorder fuel root
  | POSTORDER => postorder fuel root
  end.

End Generic.

(** The recursions of [AVLTree.hpp]; the inner [None] is the null
    dereference of [AVLTree]. *)
Fixpoint avl_insert (fuel : nat) (node : tree Z) (key : T)
  : option (option (bool * tree Z)) :=
  match fuel with
  | O => None
  | S n =>
      match node with
      | Leaf => Some (Some (true, Node Leaf key new_info Leaf))
      | Node l k h r =>
          if key =? k then Some (Some (false, node))
          else if key <? k then
            match avl_insert n l key with
            | None => None
            | Some None => Some None
            | Some (Some (false, l')) => Some (Some (false, Node l' k h r))
            | Some (Some (true, l')) =>
                Some (match AVLTree.balance (Node l' k h r) with
                      | None => None
                      | Some m => Some (true, m)
                      end)
            end
          else
            match avl_insert n r key with
            | None => None
            | Some None => Some None
            | Some (Some (false, r')) => Some (Some (false, Node l k h r'))
            | Some (Some (true, r')) =>
                Some (match AVLTree.balance (Node l k h r') with
                      | None => None
                      | Some m => Some (true, m)
                      end)
            end
      end
  end.

Fixpoint pullMax (fuel : nat) (node : tree Z)
  : option (option (tree Z * tree Z)) :=
  match fuel with
  | O => None
  | S n =>
      match node with
      | Leaf => Some None
      | Node l k h r =>
          match r with
          | Node _ _ _ _ =>
              match pullMax n r with
              | None => None
              | Some None => Some None
              | Some (Some (max, r')) =>
                  Some (match AVLTree.balance (Node l k h r') with
                        | None => None
                        | Some m => Some (max, m)
                        end)
              end
          | Leaf => Some (Some (node, l))
          end
      end
  end.

Fixpoint avl_remove (fuel : nat) (node : tree Z) (key : T)
  : option (option (option T * tree Z)) :=
  match fuel with
  | O => None
  | S n =>
      match node with
      | Leaf => Some (Some (None, Leaf))
      | Node l k h r =>
          if key <? k then
            match avl_remove n l key with
            | None => None
            | Some None => Some None
            | Some (Some (None, l')) => Some (Some (None, Node l' k h r))
            | Some (Some (Some x, l')) =>
                Some (match AVLTree.balance (Node l' k h r) with
                      | None => None
                      | Some m => Some (Some x, m)
                      end)
            end
          else if key >? k then
            match avl_remove n r key with
            | None => None
            | Some None => Some None
            | Some (Some (None, r')) => Some (Some (None, Node l k h r'))
            | Some (Some (Some x, r')) =>
                Some (match AVLTree.balance (Node l k h r') with
                      | None => None
                      | Some m => Some (Some x, m)
                      end)
            end
          else
            match l with
            | Node _ _ _ _ =>
                match pullMax n l with
                | None => None
                | Some None => Some None
                | Some (Some (Leaf, _)) => Some None
                | Some (Some (Node _ mk _ _, l')) =>
                    Some (match AVLTree.balance (Node l' mk h r) with
                          | None => None
                          | Some m => Some (Some k, m)
                          end)
                end
            | Leaf => Some (Some (Some k, r))
            end
      end
  end.

Definition avl_removeMax (fuel : nat) (root : tree Z)
  : option (option (option T * tree Z)) :=
  match root with
  | Leaf => Some (Some (None, Leaf))
  | Node _ _ _ _ =>
      match findMax fuel root with
      | None => None
      | Some Leaf => Some None
      | Some (Node _ mk _ _ as max) =>
          match avl_remove fuel max mk with
          | None => None
          | Some None => Some None
          | Some (Some (res, max')) =>
              Some (Some (res, BSTree.set_findMax root max'))
          end
      end
  end.

Definition avl_removeMin (fuel : nat) (root : tree Z)
  : option (option (option T * tree Z)) :=
  match root with
  | Leaf => Some (Some (None, Leaf))
  | Node _ _ _ _ =>
      match findMin fuel root with
      | None => None
      | Some Leaf => Some None
      | Some (Node _ mk _ _ as min) =>
          match avl_remove fuel min mk with
          | None => None
          | Some None => Some None
          | Some (Some (res, min')) =>
              Some (Some (res, BSTree.set_findMin root min'))
          end
      end
  end.

End Bounded.

(** * Properties *)

(** Equations between in-order sequences up to the nesting of [++]. *)
Ltac list_assoc :=
  simpl; repeat (rewrite <- app_assoc; simpl); reflexivity.

(** ** Lists *)

Lemma sorted_app (l1 l2 : list Z) :
  StronglySorted Z.lt (l1 ++ l2) <->
  StronglySorted Z.lt l1 /\ StronglySorted Z.lt l2 /\
  (forall x y, In x l1 -> In y l2 -> x < y).
Proof.
  induction l1 as [|a l1 IH]; simpl.
  - split.
    + intros H. repeat split; auto. constructor. intros x y [].
    + tauto.
  - split.
    + intros H. inversion H as [|? ? Hs Hf]; subst.
      apply IH in Hs. destruct Hs as (H1 & H2 & H3).
      rewrite Forall_app in Hf. destruct Hf as [Hf1 Hf2].
      repeat split; auto.
      * constructor; assumption.
      * intros x y [<-|Hx] Hy.
        -- rewrite Forall_forall in Hf2. auto.
        -- auto.
    + intros (H1 & H2 & H3). inversion H1 as [|? ? Hs Hf]; subst.
      constructor.
      * apply IH. repeat split; auto.
      * rewrite Forall_app. split; auto.
        rewrite Forall_forall. intros y Hy. apply H3; auto.
Qed.

Lemma sorted_cons_iff (a : Z) (l : list Z) :
  StronglySorted Z.lt (a :: l) <->
  StronglySorted Z.lt l /\ Forall (fun x => a < x) l.
Proof.
  split.
  - intros H. inversion H; subst. auto.
  - intros [H1 H2]. constructor; assumption.
Qed.

Lemma sorted_middle (l1 l2 : list Z) (k : Z) :
  StronglySorted Z.lt (l1 ++ k :: l2) <->
  StronglySorted Z.lt l1 /\ StronglySorted Z.lt l2 /\
  Forall (fun x => x < k) l1 /\ Forall (fun x => k < x) l2.
Proof.
  rewrite sorted_app, sorted_cons_iff, !Forall_forall. split.
  - intros (H1 & (H2 & H3) & H4).
    repeat split; auto. intros x Hx. apply H4; simpl; auto.
  - intros (H1 & H2 & H3 & H4). repeat split; auto.
    intros x y Hx [<-|Hy]; auto.
      specialize (H3 x Hx). specialize (H4 y Hy). lia.
Qed.

Lemma sorted_remove_middle (l1 l2 : list Z) (k : Z) :
  StronglySorted Z.lt (l1 ++ k :: l2) -> StronglySorted Z.lt (l1 ++ l2).
Proof.
  rewrite sorted_middle, sorted_app, !Forall_forall.
  intros (H1 & H2 & H3 & H4). repeat split; auto.
  intros x y Hx Hy. specialize (H3 x Hx). specialize (H4 y Hy). lia.
Qed.

Lemma sorted_NoDup (l : list Z) : StronglySorted Z.lt l -> NoDup l.
Proof.
  induction 1 as [|a l Hs IH Hf]; constructor; auto.
  intros Hin. rewrite Forall_forall in Hf. specialize (Hf a Hin). lia.
Qed.

(** A key that occurs once splits a list in one way only. *)
Lemma split_unique (k : Z) (l1 l2 m1 m2 : list Z) :
  ~ In k l1 -> ~ In k m1 ->
  l1 ++ k :: l2 = m1 ++ k :: m2 -> l1 = m1 /\ l2 = m2.
Proof.
  revert m1. induction l1 as [|a l1 IH]; intros [|b m1] H1 H2 E;
    simpl in *.
  - inversion E. auto.
  - inversion E; subst. tauto.
  - inversion E; subst. tauto.
  - inversion E; subst. destruct (IH m1) as [-> ->]; auto.
Qed.

(** ** BSTree: the slot of the greatest and of the least key *)
Section BSTFacts.
Context {I : Type} {NK : NodeKind I}.
Implicit Types (t l r s : tree I) (k key : T).
Import BSTree.

Lemma bst_sorted t : bst t <-> StronglySorted Z.lt (inorder t).
Proof.
  induction t as [|l IHl k i r IHr]; simpl.
  - split; constructor.
  - rewrite sorted_middle, IHl, IHr. tauto.
Qed.

Lemma findMax_step l k i a b c d :
  findMax (Node l k i (Node a b c d)) = findMax (Node a b c d).
Proof. reflexivity. Qed.

Lemma set_findMax_step l k i a b c d s :
  set_findMax (Node l k i (Node a b c d)) s =
  Node l k i (set_findMax (Node a b c d) s).
Proof. reflexivity. Qed.

Lemma findMin_step a b c d k i r :
  findMin (Node (Node a b c d) k i r) = findMin (Node a b c d).
Proof. reflexivity. Qed.

Lemma set_findMin_step a b c d k i r s :
  set_findMin (Node (Node a b c d) k i r) s =
  Node (set_findMin (Node a b c d) s) k i r.
Proof. reflexivity. Qed.

(** The slot read by [findMax] holds a node without right child, the keys
    before it are untouched by an assignment to the slot. *)
Lemma findMax_lens l k i r :
  exists pre ml mk mi,
    findMax (Node l k i r) = Node ml mk mi Leaf /\
    inorder (Node l k i r) = pre ++ inorder ml ++ [mk] /\
    forall s, inorder (set_findMax (Node l k i r) s) = pre ++ inorder s.
Proof.
  revert l k i. induction r as [|rl _ rk ri rr IH]; intros l k i.
  - exists [], l, k, i. repeat split.
  - destruct (IH rl rk ri) as (pre & ml & mk & mi & E1 & E2 & E3).
    exists (inorder l ++ k :: pre), ml, mk, mi.
    rewrite findMax_step. split; [exact E1|]. split.
    + change (inorder (Node l k i (Node rl rk ri rr)))
        with (inorder l ++ k :: inorder (Node rl rk ri rr)).
      rewrite E2, <- app_assoc. reflexivity.
    + intros s. rewrite set_findMax_step.
      change (inorder l ++ k :: inorder (set_findMax (Node rl rk ri rr) s) =
              (inorder l ++ k :: pre) ++ inorder s).
      rewrite E3, <- app_assoc. reflexivity.
Qed.

Lemma findMin_lens l k i r :
  exists post mr mk mi,
    findMin (Node l k i r) = Node Leaf mk mi mr /\
    inorder (Node l k i r) = mk :: inorder mr ++ post /\
    forall s, inorder (set_findMin (Node l k i r) s) = inorder s ++ post.
Proof.
  revert k i r. induction l as [|ll IH lk li lr _]; intros k i r.
  - exists [], r, k, i. simpl. rewrite app_nil_r. repeat split.
    intros s. rewrite app_nil_r. reflexivity.
  - destruct (IH lk li lr) as (post & mr & mk & mi & E1 & E2 & E3).
    exists (post ++ k :: inorder r), mr, mk, mi.
    rewrite findMin_step. split; [exact E1|]. split.
    + change (inorder (Node (Node ll lk li lr) k i r))
        with (inorder (Node ll lk li lr) ++ k :: inorder r).
      rewrite E2. simpl. rewrite <- app_assoc. reflexivity.
    + intros s. rewrite set_findMin_step.
      change (inorder (set_findMin (Node ll lk li lr) s) ++ k :: inorder r =
              inorder s ++ post ++ k :: inorder r).
      rewrite E3, <- app_assoc. reflexivity.
Qed.

Lemma getMax_last t : getMax t = last (map Some (inorder t)) None.
Proof.
  induction t as [|l _ k i r IH]; [reflexivity|].
  simpl. rewrite map_app. simpl.
  destruct r as [|rl rk ri rr].
  - simpl. rewrite last_last. reflexivity.
  - rewrite IH. change (map Some (inorder l) ++ Some k :: map Some (inorder (Node rl rk ri rr)))
      with (map Some (inorder l) ++ [Some k] ++ map Some (inorder (Node rl rk ri rr))).
    rewrite !app_assoc.
    remember (Node rl rk ri rr) as n.
    assert (Hne : map Some (inorder n) <> []).
    { subst n. simpl. rewrite map_app. simpl. intros E.
      apply app_eq_nil in E. destruct E as [_ E]. discriminate. }
    clear -Hne. revert Hne.
    generalize (map Some (inorder n)) as q.
    generalize ((map Some (inorder l) ++ [Some k])) as p.
    intros p q Hq. destruct (exists_last Hq) as (q' & a & ->).
    rewrite app_assoc, !last_last. reflexivity.
Qed.

Lemma getMin_head t : getMin t = hd None (map Some (inorder t)).
Proof.
  induction t as [|l IH k i r _]; [reflexivity|].
  simpl. destruct l as [|ll lk li lr].
  - reflexivity.
  - rewrite IH. simpl. rewrite !map_app.
    destruct (map Some (inorder ll)); reflexivity.
Qed.

(** ** BSTree: removal *)

(** A key that is not stored: both removals return [nullptr] and leave the
    tree as it is. *)
Lemma removeByCopy_absent t key :
  ~ In key (inorder t) -> removeByCopy t key = (None, t).
Proof.
  induction t as [|l IHl k i r IHr]; simpl; intros H; [reflexivity|].
  rewrite in_app_iff in H. simpl in H.
  destruct (k >? key) eqn:E1.
  - rewrite IHl by tauto. reflexivity.
  - destruct (k <? key) eqn:E2.
    + rewrite IHr by tauto. reflexivity.
    + exfalso. apply H. right. left. lia.
Qed.

Lemma removeByFusion_absent t key :
  ~ In key (inorder t) -> removeByFusion t key = (None, t).
Proof.
  induction t as [|l IHl k i r IHr]; simpl; intros H; [reflexivity|].
  rewrite in_app_iff in H. simpl in H.
  destruct (k >? key) eqn:E1.
  - rewrite IHl by tauto. reflexivity.
  - destruct (k <? key) eqn:E2.
    + rewrite IHr by tauto. reflexivity.
    + exfalso. apply H. right. left. lia.
Qed.

(** At the node of the key, both removals turn [inorder l ++ k :: inorder r]
    into [inorder l ++ inorder r]. *)
Lemma removeByCopy_here l k i r :
  exists t', removeByCopy (Node l k i r) k = (Some k, t') /\
             inorder t' = inorder l ++ inorder r.
Proof.
  simpl. rewrite Z.gtb_ltb, Z.ltb_irrefl.
  destruct l as [|ll lk li lr].
  - eexists. split; reflexivity.
  - destruct (findMax_lens ll lk li lr) as (pre & ml & mk & mi & E1 & E2 & E3).
    rewrite E1. eexists. split; [reflexivity|].
    change (inorder (set_findMax (Node ll lk li lr) ml) ++ mk :: inorder r =
            inorder (Node ll lk li lr) ++ inorder r).
    rewrite E3, E2, <- !app_assoc. reflexivity.
Qed.

Lemma removeByFusion_here l k i r :
  exists t', removeByFusion (Node l k i r) k = (Some k, t') /\
             inorder t' = inorder l ++ inorder r.
Proof.
  simpl. rewrite Z.gtb_ltb, Z.ltb_irrefl.
  destruct l as [|ll lk li lr].
  - eexists. split; reflexivity.
  - destruct (findMax_lens ll lk li lr) as (pre & ml & mk & mi & E1 & E2 & E3).
    rewrite E1. eexists. split; [reflexivity|].
    rewrite E3, E2. simpl. rewrite <- !app_assoc. reflexivity.
Qed.

Lemma bst_key_side l k i r key :
  bst (Node l k i r) -> In key (inorder (Node l k i r)) ->
  (key < k /\ In key (inorder l)) \/ key = k \/
  (k < key /\ In key (inorder r)).
Proof.
  simpl. intros (_ & _ & Hl & Hr) H.
  rewrite Forall_forall in Hl, Hr.
  apply in_app_or in H. destruct H as [H|[H|H]]; auto.
Qed.

(** A stored key: the removal returns it and takes it out of the in-order
    sequence. *)
Lemma removeByCopy_present t key :
  bst t -> In key (inorder t) ->
  exists t' xs ys,
    removeByCopy t key = (Some key, t') /\
    inorder t = xs ++ key :: ys /\ inorder t' = xs ++ ys.
Proof.
  induction t as [|l IHl k i r IHr]; intros Hb Hin; [destruct Hin|].
  destruct (bst_key_side _ _ _ _ _ Hb Hin) as [[Hlt H]|[->|[Hlt H]]].
  - destruct Hb as (Hbl & _). destruct (IHl Hbl H) as (l' & xs & ys & E & E1 & E2).
    exists (Node l' k i r), xs, (ys ++ k :: inorder r).
    simpl. replace (k >? key) with true by lia. rewrite E. simpl.
    rewrite E1, E2, <- !app_assoc. auto.
  - destruct (removeByCopy_here l k i r) as (t' & E & E').
    exists t', (inorder l), (inorder r). auto.
  - destruct Hb as (_ & Hbr & _). destruct (IHr Hbr H) as (r' & xs & ys & E & E1 & E2).
    exists (Node l k i r'), (inorder l ++ k :: xs), ys.
    simpl. replace (k >? key) with false by lia.
    replace (k <? key) with true by lia. rewrite E. simpl.
    rewrite E1, E2, <- !app_assoc. auto.
Qed.

Lemma removeByFusion_present t key :
  bst t -> In key (inorder t) ->
  exists t' xs ys,
    removeByFusion t key = (Some key, t') /\
    inorder t = xs ++ key :: ys /\ inorder t' = xs ++ ys.
Proof.
  induction t as [|l IHl k i r IHr]; intros Hb Hin; [destruct Hin|].
  destruct (bst_key_side _ _ _ _ _ Hb Hin) as [[Hlt H]|[->|[Hlt H]]].
  - destruct Hb as (Hbl & _). destruct (IHl Hbl H) as (l' & xs & ys & E & E1 & E2).
    exists (Node l' k i r), xs, (ys ++ k :: inorder r).
    simpl. replace (k >? key) with true by lia. rewrite E. simpl.
    rewrite E1, E2, <- !app_assoc. auto.
  - destruct (removeByFusion_here l k i r) as (t' & E & E').
    exists t', (inorder l), (inorder r). auto.
  - destruct Hb as (_ & Hbr & _). destruct (IHr Hbr H) as (r' & xs & ys & E & E1 & E2).
    exists (Node l k i r'), (inorder l ++ k :: xs), ys.
    simpl. replace (k >? key) with false by lia.
    replace (k <? key) with true by lia. rewrite E. simpl.
    rewrite E1, E2, <- !app_assoc. auto.
Qed.

(** ** BSTree: insertion *)

Lemma insert_present t key :
  bst t -> In key (inorder t) -> insert t key = (false, t).
Proof.
  induction t as [|l IHl k i r IHr]; intros Hb Hin; [destruct Hin|].
  destruct (bst_key_side _ _ _ _ _ Hb Hin) as [[Hlt H]|[->|[Hlt H]]]; simpl.
  - replace (key <? k) with true by lia.
    rewrite IHl; [reflexivity|apply Hb|assumption].
  - rewrite Z.ltb_irrefl, Z.gtb_ltb, Z.ltb_irrefl. reflexivity.
  - replace (key <? k) with false by lia.
    replace (key >? k) with true by lia.
    rewrite IHr; [reflexivity|apply Hb|assumption].
Qed.

Lemma insert_absent t key :
  ~ In key (inorder t) ->
  exists t' xs ys,
    insert t key = (true, t') /\
    inorder t = xs ++ ys /\ inorder t' = xs ++ key :: ys /\
    (bst t -> Forall (fun x => x < key) xs /\ Forall (fun x => key < x) ys).
Proof.
  induction t as [|l IHl k i r IHr]; intros Hin.
  - exists (Node Leaf key new_info Leaf), [], []. simpl. auto.
  - simpl in Hin. rewrite in_app_iff in Hin. simpl in Hin.
    assert (Hk : key <> k) by (intros ->; tauto).
    simpl. destruct (key <? k) eqn:E1.
    + destruct IHl as (l' & xs & ys & E & Ea & Eb & Hf); [tauto|].
      exists (Node l' k i r), xs, (ys ++ k :: inorder r).
      rewrite E. simpl. rewrite Ea, Eb, <- !app_assoc.
      repeat split; auto.
      * apply Hf, H.
      * destruct H as (Hbl & _ & _ & Hr). apply Forall_app. split.
        -- apply Hf, Hbl.
        -- constructor; [lia|].
           eapply Forall_impl; [|exact Hr]. simpl. intros; lia.
    + replace (key >? k) with true by lia.
      destruct IHr as (r' & xs & ys & E & Ea & Eb & Hf); [tauto|].
      exists (Node l k i r'), (inorder l ++ k :: xs), ys.
      rewrite E. simpl. rewrite Ea, Eb, <- !app_assoc.
      repeat split; auto.
      * destruct H as (_ & Hbr & Hl & _). apply Forall_app. split.
        -- eapply Forall_impl; [|exact Hl]. simpl. intros; lia.
        -- constructor; [lia|]. apply Hf, Hbr.
      * apply Hf, H.
Qed.

(** Placing a key between the keys below it and the keys above it keeps a
    sequence strictly ascending. *)
Lemma sorted_insert_middle (xs ys : list Z) (k : Z) :
  StronglySorted Z.lt (xs ++ ys) ->
  Forall (fun x => x < k) xs -> Forall (fun x => k < x) ys ->
  StronglySorted Z.lt (xs ++ k :: ys).
Proof.
  rewrite sorted_app, sorted_middle. tauto.
Qed.

Lemma insert_bst t key : bst t -> bst (snd (insert t key)).
Proof.
  intros Hb. destruct (in_dec Z.eq_dec key (inorder t)) as [Hin|Hin].
  - rewrite insert_present; assumption.
  - destruct (insert_absent t key Hin) as (t' & xs & ys & E & Ea & Eb & Hf).
    rewrite E. simpl. apply bst_sorted. rewrite Eb.
    apply bst_sorted in Hb as Hs. rewrite Ea in Hs.
    apply sorted_insert_middle; [assumption|apply Hf, Hb|apply Hf, Hb].
Qed.

End BSTFacts.

(** ** AVLTree: rotations and [balance] *)
Section AVLFacts.
Import BSTree AVLTree.
Implicit Types (t l r n : tree Z) (k key h : Z).

Lemma height_of_nonneg t : hpos t -> 0 <= height_of t.
Proof. destruct t; simpl; lia. Qed.

Lemma updateHeight_pos l r : hpos l -> hpos r -> 1 <= updateHeight l r.
Proof.
  intros Hl Hr. apply height_of_nonneg in Hl, Hr. unfold updateHeight.
  destruct (height_of l >? height_of r); lia.
Qed.

Lemma updateHeight_max l r :
  updateHeight l r = 1 + Z.max (height_of l) (height_of r).
Proof.
  unfold updateHeight. destruct (height_of l >? height_of r) eqn:E; lia.
Qed.

Lemma rotateLeft_ok l k h rl rk rh rr :
  hpos l -> hpos rl -> hpos rr ->
  exists n, rotateLeft (Node l k h (Node rl rk rh rr)) = Some n /\
            inorder n = inorder (Node l k h (Node rl rk rh rr)) /\ hpos n.
Proof.
  intros Hl Hrl Hrr. eexists. split; [reflexivity|]. split.
  - simpl. rewrite <- app_assoc. reflexivity.
  - pose proof (updateHeight_pos l rl Hl Hrl) as H1.
    assert (H2 : hpos (Node l k (updateHeight l rl) rl)) by (simpl; auto).
    pose proof (updateHeight_pos _ rr H2 Hrr). simpl; auto.
Qed.

Lemma rotateRight_ok ll lk lh lr k h r :
  hpos ll -> hpos lr -> hpos r ->
  exists n, rotateRight (Node (Node ll lk lh lr) k h r) = Some n /\
            inorder n = inorder (Node (Node ll lk lh lr) k h r) /\ hpos n.
Proof.
  intros Hll Hlr Hr. eexists. split; [reflexivity|]. split.
  - simpl. rewrite <- app_assoc. reflexivity.
  - pose proof (updateHeight_pos lr r Hlr Hr) as H1.
    assert (H2 : hpos (Node lr k (updateHeight lr r) r)) by (simpl; auto).
    pose proof (updateHeight_pos ll _ Hll H2). simpl; auto.
Qed.

(** [balance] dereferences no null pointer as soon as the cached heights of
    the two subtrees are positive; it keeps the in-order sequence. *)
Lemma balance_ok l k h r :
  hpos l -> hpos r ->
  exists n, balance (Node l k h r) = Some n /\
            inorder n = inorder (Node l k h r) /\ hpos n.
Proof.
  intros Hl Hr. unfold balance, bFactor.
  pose proof (height_of_nonneg l Hl) as Pl.
  pose proof (height_of_nonneg r Hr) as Pr.
  pose proof (updateHeight_pos l r Hl Hr) as Pu.
  destruct (height_of l - height_of r =? 2) eqn:E2.
  - destruct l as [|ll lk lh lr]; [simpl in *; lia|].
    destruct Hl as (Hll & Hlr & Hlh).
    destruct (height_of ll - height_of lr <? 0) eqn:E3.
    + destruct lr as [|lrl lrk lrh lrr].
      { apply height_of_nonneg in Hll. simpl in E3. lia. }
      destruct Hlr as (Hlrl & Hlrr & _).
      destruct (rotateLeft_ok ll lk lh lrl lrk lrh lrr Hll Hlrl Hlrr)
        as (l' & El & Il & Pl').
      rewrite El. cbn in El. injection El as <-.
      destruct Pl' as (Pa & Pb & _).
      edestruct rotateRight_ok as (n & En & In' & Pn);
        [exact Pa|exact Pb|exact Hr|].
      exists n. split; [exact En|]. split; [|exact Pn].
      rewrite In'. list_assoc.
    + edestruct rotateRight_ok as (n & En & In' & Pn);
        [exact Hll|exact Hlr|exact Hr|].
      exists n. split; [exact En|]. split; [|exact Pn].
      rewrite In'. reflexivity.
  - destruct (height_of l - height_of r =? -2) eqn:E4.
    + destruct r as [|rl rk rh rr]; [simpl in *; lia|].
      destruct Hr as (Hrl & Hrr & Hrh).
      destruct (height_of rl - height_of rr >? 0) eqn:E3.
      * destruct rl as [|rll rlk rlh rlr].
        { apply height_of_nonneg in Hrr. simpl in E3. lia. }
        destruct Hrl as (Hrll & Hrlr & _).
        destruct (rotateRight_ok rll rlk rlh rlr rk rh rr Hrll Hrlr Hrr)
          as (r' & Er & Ir & Pr').
        rewrite Er. cbn in Er. injection Er as <-.
        destruct Pr' as (Pa & Pb & _).
        edestruct rotateLeft_ok as (n & En & In' & Pn);
          [exact Hl|exact Pa|exact Pb|].
        exists n. split; [exact En|]. split; [|exact Pn].
        rewrite In'. list_assoc.
      * edestruct rotateLeft_ok as (n & En & In' & Pn);
          [exact Hl|exact Hrl|exact Hrr|].
        exists n. split; [exact En|]. split; [|exact Pn].
        rewrite In'. reflexivity.
    + eexists. split; [reflexivity|]. split; [reflexivity|].
      simpl. auto.
Qed.

#[local] Arguments balance : simpl never.

(** ** AVLTree: insertion *)

Lemma avl_insert_present t key :
  bst t -> In key (inorder t) -> insert t key = Some (false, t).
Proof.
  induction t as [|l IHl k h r IHr]; intros Hb Hin; [destruct Hin|].
  destruct (bst_key_side _ _ _ _ _ Hb Hin) as [[Hlt H]|[->|[Hlt H]]]; simpl.
  - replace (key =? k) with false by lia.
    replace (key <? k) with true by lia.
    rewrite IHl; [reflexivity|apply Hb|assumption].
  - rewrite Z.eqb_refl. reflexivity.
  - replace (key =? k) with false by lia.
    replace (key <? k) with false by lia.
    rewrite IHr; [reflexivity|apply Hb|assumption].
Qed.

Lemma avl_insert_absent t key :
  hpos t -> ~ In key (inorder t) ->
  exists t' xs ys,
    insert t key = Some (true, t') /\
    inorder t = xs ++ ys /\ inorder t' = xs ++ key :: ys /\ hpos t' /\
    (bst t -> Forall (fun x => x < key) xs /\ Forall (fun x => key < x) ys).
Proof.
  induction t as [|l IHl k h r IHr]; intros Hp Hin.
  - exists (Node Leaf key 1 Leaf), [], []. simpl. repeat split; auto. lia.
  - simpl in Hin. rewrite in_app_iff in Hin. simpl in Hin.
    assert (Hk : key <> k) by (intros ->; tauto).
    destruct Hp as (Hpl & Hpr & Hh).
    simpl. replace (key =? k) with false by lia.
    destruct (key <? k) eqn:E1.
    + destruct IHl as (l' & xs & ys & E & Ea & Eb & Hp' & Hf); [auto|tauto|].
      destruct (balance_ok l' k h r Hp' Hpr) as (n & En & In' & Pn).
      exists n, xs, (ys ++ k :: inorder r).
      rewrite E, En. split; [reflexivity|]. split; [|split; [|split]].
      * rewrite Ea. list_assoc.
      * rewrite In'. simpl. rewrite Eb. list_assoc.
      * exact Pn.
      * intros (Hbl & _ & _ & Hr). split; [apply Hf, Hbl|].
        apply Forall_app. split; [apply Hf, Hbl|].
        constructor; [lia|].
        eapply Forall_impl; [|exact Hr]. simpl. intros; lia.
    + destruct IHr as (r' & xs & ys & E & Ea & Eb & Hp' & Hf); [auto|tauto|].
      destruct (balance_ok l k h r' Hpl Hp') as (n & En & In' & Pn).
      exists n, (inorder l ++ k :: xs), ys.
      rewrite E, En. split; [reflexivity|]. split; [|split; [|split]].
      * rewrite Ea. list_assoc.
      * rewrite In'. simpl. rewrite Eb. list_assoc.
      * exact Pn.
      * intros (_ & Hbr & Hl & _). split; [|apply Hf, Hbr].
        apply Forall_app. split.
        -- eapply Forall_impl; [|exact Hl]. simpl. intros; lia.
        -- constructor; [lia|]. apply Hf, Hbr.
Qed.

Lemma avl_insert_inv t key :
  hpos t -> bst t ->
  exists b t', insert t key = Some (b, t') /\ hpos t' /\ bst t' /\
    (forall x, In x (inorder t') <-> x = key \/ In x (inorder t)) /\
    (b = false <-> In key (inorder t)).
Proof.
  intros Hp Hb. destruct (in_dec Z.eq_dec key (inorder t)) as [Hin|Hin].
  - exists false, t. rewrite avl_insert_present by assumption.
    repeat split; auto.
    + intros [->|H]; auto.
  - destruct (avl_insert_absent t key Hp Hin)
      as (t' & xs & ys & E & Ea & Eb & Hp' & Hf).
    exists true, t'. rewrite E. split; [reflexivity|]. split; [exact Hp'|].
    split; [|split].
    + apply bst_sorted. rewrite Eb.
      apply bst_sorted in Hb as Hs. rewrite Ea in Hs.
      apply sorted_insert_middle; [assumption|apply Hf, Hb|apply Hf, Hb].
    + intros x. rewrite Ea, Eb, !in_app_iff. simpl. intuition auto.
    + split; [discriminate|contradiction].
Qed.

(** ** AVLTree: removal *)

Lemma pullMax_ok l k h r :
  hpos (Node l k h r) ->
  exists ml mk mh n,
    pullMax (Node l k h r) = Some (Node ml mk mh Leaf, n) /\
    inorder (Node l k h r) = inorder n ++ [mk] /\ hpos n.
Proof.
  revert l k h. induction r as [|rl _ rk rh rr IH]; intros l k h Hp.
  - exists l, k, h, l. simpl. repeat split. apply Hp.
  - destruct Hp as (Hpl & Hpr & Hh).
    destruct (IH rl rk rh Hpr) as (ml & mk & mh & r' & E & Ei & Hp').
    destruct (balance_ok l k h r' Hpl Hp') as (n & En & In' & Pn).
    exists ml, mk, mh, n.
    change (pullMax (Node l k h (Node rl rk rh rr)))
      with (match pullMax (Node rl rk rh rr) with
            | None => None
            | Some (max, r') =>
                match balance (Node l k h r') with
                | None => None
                | Some n => Some (max, n)
                end
            end).
    rewrite E, En. split; [reflexivity|]. split; [|exact Pn].
    rewrite In'.
    change (inorder l ++ k :: inorder (Node rl rk rh rr) =
            inorder (Node l k h r') ++ [mk]).
    rewrite Ei. list_assoc.
Qed.

#[local] Arguments pullMax : simpl never.

Lemma avl_remove_absent t key :
  ~ In key (inorder t) -> remove t key = Some (None, t).
Proof.
  induction t as [|l IHl k h r IHr]; simpl; intros H; [reflexivity|].
  rewrite in_app_iff in H. simpl in H.
  destruct (key <? k) eqn:E1.
  - rewrite IHl by tauto. reflexivity.
  - destruct (key >? k) eqn:E2.
    + rewrite IHr by tauto. reflexivity.
    + exfalso. apply H. right. left. lia.
Qed.

Lemma avl_remove_here l k h r :
  hpos (Node l k h r) ->
  exists t', remove (Node l k h r) k = Some (Some k, t') /\
             inorder t' = inorder l ++ inorder r /\ hpos t'.
Proof.
  intros (Hpl & Hpr & Hh). simpl. rewrite Z.ltb_irrefl, Z.gtb_ltb, Z.ltb_irrefl.
  destruct l as [|ll lk lh lr].
  - exists r. auto.
  - destruct (pullMax_ok ll lk lh lr Hpl) as (ml & mk & mh & l' & E & Ei & Hp').
    rewrite E.
    destruct (balance_ok l' mk h r Hp' Hpr) as (n & En & In' & Pn).
    rewrite En. exists n. split; [reflexivity|]. split; [|exact Pn].
    rewrite In', Ei. list_assoc.
Qed.

Lemma avl_remove_present t key :
  hpos t -> bst t -> In key (inorder t) ->
  exists t' xs ys,
    remove t key = Some (Some key, t') /\
    inorder t = xs ++ key :: ys /\ inorder t' = xs ++ ys /\ hpos t'.
Proof.
  induction t as [|l IHl k h r IHr]; intros Hp Hb Hin; [destruct Hin|].
  destruct (bst_key_side _ _ _ _ _ Hb Hin) as [[Hlt H]|[->|[Hlt H]]].
  - destruct Hp as (Hpl & Hpr & Hh). destruct Hb as (Hbl & _).
    destruct (IHl Hpl Hbl H) as (l' & xs & ys & E & E1 & E2 & Hp').
    destruct (balance_ok l' k h r Hp' Hpr) as (n & En & In' & Pn).
    exists n, xs, (ys ++ k :: inorder r).
    simpl. replace (key <? k) with true by lia. rewrite E, En.
    split; [reflexivity|]. split; [|split; [|exact Pn]].
    + rewrite E1. list_assoc.
    + rewrite In'. simpl. rewrite E2. list_assoc.
  - destruct (avl_remove_here l k h r Hp) as (t' & E & E' & Hp').
    exists t', (inorder l), (inorder r). auto.
  - destruct Hp as (Hpl & Hpr & Hh). destruct Hb as (_ & Hbr & _).
    destruct (IHr Hpr Hbr H) as (r' & xs & ys & E & E1 & E2 & Hp').
    destruct (balance_ok l k h r' Hpl Hp') as (n & En & In' & Pn).
    exists n, (inorder l ++ k :: xs), ys.
    simpl. replace (key <? k) with false by lia.
    replace (key >? k) with true by lia. rewrite E, En.
    split; [reflexivity|]. split; [|split; [|exact Pn]].
    + rewrite E1. list_assoc.
    + rewrite In'. simpl. rewrite E2. list_assoc.
Qed.

(** ** AVLTree: the balance invariant *)

Lemma height_nonneg {I : Type} (t : tree I) : 0 <= height t.
Proof. induction t; cbn [height]; lia. Qed.

Lemma cached_height_of t : cached_ok t -> height_of t = height t.
Proof. destruct t; simpl; [reflexivity|tauto]. Qed.

Lemma avl_inv_cached t : avl_inv t -> cached_ok t.
Proof. induction t; simpl; tauto. Qed.

Lemma avl_inv_height_of t : avl_inv t -> height_of t = height t.
Proof. intros H. apply cached_height_of, avl_inv_cached, H. Qed.

Lemma cached_hpos t : cached_ok t -> hpos t.
Proof.
  induction t as [|l IHl k h r IHr]; cbn [cached_ok hpos]; [tauto|].
  intros (Hl & Hr & ->). repeat split; auto.
  pose proof (height_nonneg l). pose proof (height_nonneg r). lia.
Qed.

Lemma avl_inv_hpos t : avl_inv t -> hpos t.
Proof. intros H. apply cached_hpos, avl_inv_cached, H. Qed.

(** Closes the invariant, in-order and height goals of a rebuilt node. *)
Ltac avl_goal :=
  cbn [height] in *;
  cbn [avl_inv height height_of inorder];
  repeat (rewrite !updateHeight_max; cbn [avl_inv height height_of inorder]);
  repeat split; auto; try list_assoc; lia.

(** [balance] on a node whose subtrees satisfy the invariant and whose
    heights differ by at most two: the result satisfies the invariant, and
    its height is the greater of the two heights or one more. *)
Lemma balance_avl l k h r :
  avl_inv l -> avl_inv r -> -2 <= height l - height r <= 2 ->
  exists n, balance (Node l k h r) = Some n /\ avl_inv n /\
            inorder n = inorder (Node l k h r) /\
            (height n = Z.max (height l) (height r) \/
             height n = 1 + Z.max (height l) (height r)) /\
            (-1 <= height l - height r <= 1 ->
             height n = 1 + Z.max (height l) (height r)).
Proof.
  intros Hl Hr Hd. unfold balance, bFactor.
  rewrite (avl_inv_height_of l Hl), (avl_inv_height_of r Hr).
  pose proof (height_nonneg l) as Nl. pose proof (height_nonneg r) as Nr.
  destruct (height l - height r =? 2) eqn:E2.
  - destruct l as [|ll lk lh lr]; [cbn [height] in *; lia|].
    destruct Hl as (Hll & Hlr & Hlh & Hlb).
    rewrite (avl_inv_height_of ll Hll), (avl_inv_height_of lr Hlr).
    cbn [height] in E2, Hd.
    destruct (height ll - height lr <? 0) eqn:E3.
    + destruct lr as [|lrl lrk lrh lrr].
      { pose proof (height_nonneg ll). cbn [height] in E3. lia. }
      destruct Hlr as (Hlrl & Hlrr & Hlrh & Hlrb).
      cbn [height] in E3, Hlb, Hlh.
      eexists. split; [reflexivity|].
      pose proof (avl_inv_height_of _ Hll).
      pose proof (avl_inv_height_of _ Hlrl).
      pose proof (avl_inv_height_of _ Hlrr).
      pose proof (avl_inv_height_of _ Hr).
      avl_goal.
    + eexists. split; [reflexivity|].
      pose proof (avl_inv_height_of _ Hll).
      pose proof (avl_inv_height_of _ Hlr).
      pose proof (avl_inv_height_of _ Hr).
      avl_goal.
  - destruct (height l - height r =? -2) eqn:E4.
    + destruct r as [|rl rk rh rr]; [cbn [height] in *; lia|].
      destruct Hr as (Hrl & Hrr & Hrh & Hrb).
      rewrite (avl_inv_height_of rl Hrl), (avl_inv_height_of rr Hrr).
      cbn [height] in E4, Hd.
      destruct (height rl - height rr >? 0) eqn:E3.
      * destruct rl as [|rll rlk rlh rlr].
        { pose proof (height_nonneg rr). cbn [height] in E3. lia. }
        destruct Hrl as (Hrll & Hrlr & Hrlh & Hrlb).
        cbn [height] in E3, Hrb, Hrh.
        eexists. split; [reflexivity|].
        pose proof (avl_inv_height_of _ Hl).
        pose proof (avl_inv_height_of _ Hrll).
        pose proof (avl_inv_height_of _ Hrlr).
        pose proof (avl_inv_height_of _ Hrr).
        avl_goal.
      * eexists. split; [reflexivity|].
        pose proof (avl_inv_height_of _ Hl).
        pose proof (avl_inv_height_of _ Hrl).
        pose proof (avl_inv_height_of _ Hrr).
        avl_goal.
    + eexists. split; [reflexivity|].
      pose proof (avl_inv_height_of _ Hl).
      pose proof (avl_inv_height_of _ Hr).
      avl_goal.
Qed.

(** [insert(Node*&, T&)] keeps the invariant; the height grows by at most
    one, and a refused key leaves the tree as it is. *)
Lemma insert_avl t key :
  avl_inv t ->
  exists b t', insert t key = Some (b, t') /\ avl_inv t' /\
    (height t' = height t \/ height t' = height t + 1) /\
    (b = false -> t' = t).
Proof.
  induction t as [|l IHl k h r IHr]; intros Ha.
  - exists true, (Node Leaf key 1 Leaf). split; [reflexivity|].
    cbn [avl_inv height]. repeat split; auto; try lia; try discriminate.
  - destruct Ha as (Hl & Hr & Hh & Hb). cbn [insert].
    destruct (key =? k).
    { exists false, (Node l k h r). cbn [avl_inv]. repeat split; auto; lia. }
    destruct (key <? k).
    + destruct (IHl Hl) as (b & l' & E & Hl' & Hd & Hu). rewrite E.
      destruct b.
      * destruct (balance_avl l' k h r Hl' Hr) as (n & En & Hn & _ & H1 & H2);
          [lia|].
        rewrite En. exists true, n. split; [reflexivity|].
        cbn [height]. repeat split; auto; try discriminate. lia.
      * rewrite (Hu eq_refl). exists false, (Node l k h r).
        cbn [avl_inv]. repeat split; auto; lia.
    + destruct (IHr Hr) as (b & r' & E & Hr' & Hd & Hu). rewrite E.
      destruct b.
      * destruct (balance_avl l k h r' Hl Hr') as (n & En & Hn & _ & H1 & H2);
          [lia|].
        rewrite En. exists true, n. split; [reflexivity|].
        cbn [height]. repeat split; auto; try discriminate. lia.
      * rewrite (Hu eq_refl). exists false, (Node l k h r).
        cbn [avl_inv]. repeat split; auto; lia.
Qed.

(** [pullMax] keeps the invariant and lowers the height by at most one. *)
Lemma pullMax_avl l k h r :
  avl_inv (Node l k h r) ->
  exists ml mk mh n,
    pullMax (Node l k h r) = Some (Node ml mk mh Leaf, n) /\ avl_inv n /\
    (height n = height (Node l k h r) \/
     height n = height (Node l k h r) - 1).
Proof.
  revert l k h. induction r as [|rl _ rk rh rr IH]; intros l k h Ha.
  - exists l, k, h, l. destruct Ha as (Hl & _ & _ & Hb).
    cbn [height] in *. pose proof (height_nonneg l).
    repeat split; auto. lia.
  - destruct Ha as (Hl & Hr & Hh & Hb).
    destruct (IH rl rk rh Hr) as (ml & mk & mh & r' & E & Hr' & Hd).
    destruct (balance_avl l k h r' Hl Hr') as (n & En & Hn & _ & H1 & H2);
      [lia|].
    exists ml, mk, mh, n.
    change (pullMax (Node l k h (Node rl rk rh rr)))
      with (match pullMax (Node rl rk rh rr) with
            | None => None
            | Some (max, r') =>
                match balance (Node l k h r') with
                | None => None
                | Some n => Some (max, n)
                end
            end).
    rewrite E, En. split; [reflexivity|]. split; [exact Hn|].
    remember (Node rl rk rh rr) as r0. cbn [height]. lia.
Qed.

(** [remove(Node*&, T&)] keeps the invariant; the height falls by at most
    one, and a key that is not found leaves the tree as it is. *)
Lemma remove_avl t key :
  avl_inv t ->
  exists res t', remove t key = Some (res, t') /\ avl_inv t' /\
    (height t' = height t \/ height t' = height t - 1) /\
    (res = None -> t' = t).
Proof.
  induction t as [|l IHl k h r IHr]; intros Ha.
  - exists None, Leaf. cbn [remove avl_inv height]. auto.
  - destruct Ha as (Hl & Hr & Hh & Hb). cbn [remove].
    destruct (key <? k); [|destruct (key >? k)].
    + destruct (IHl Hl) as (res & l' & E & Hl' & Hd & Hu). rewrite E.
      destruct res as [x|].
      * destruct (balance_avl l' k h r Hl' Hr) as (n & En & Hn & _ & H1 & H2);
          [lia|].
        rewrite En. exists (Some x), n. split; [reflexivity|].
        cbn [height]. repeat split; auto; try discriminate. lia.
      * rewrite (Hu eq_refl). exists None, (Node l k h r).
        cbn [avl_inv]. repeat split; auto; lia.
    + destruct (IHr Hr) as (res & r' & E & Hr' & Hd & Hu). rewrite E.
      destruct res as [x|].
      * destruct (balance_avl l k h r' Hl Hr') as (n & En & Hn & _ & H1 & H2);
          [lia|].
        rewrite En. exists (Some x), n. split; [reflexivity|].
        cbn [height]. repeat split; auto; try discriminate. lia.
      * rewrite (Hu eq_refl). exists None, (Node l k h r).
        cbn [avl_inv]. repeat split; auto; lia.
    + destruct l as [|ll lk lh lr].
      * exists (Some k), r. cbn [height]. pose proof (height_nonneg r).
        repeat split; auto; try discriminate. lia.
      * destruct (pullMax_avl ll lk lh lr Hl)
          as (ml & mk & mh & l' & E & Hl' & Hd).
        rewrite E.
        destruct (balance_avl l' mk h r Hl' Hr) as (n & En & Hn & _ & H1 & H2);
          [lia|].
        rewrite En. exists (Some k), n. split; [reflexivity|].
        remember (Node ll lk lh lr) as l0. cbn [height].
        repeat split; auto; try discriminate. lia.
Qed.

End AVLFacts.

(** ** Removal by fusion against removal by copy *)
Section FusionCopy.
Context {I : Type} {NK : NodeKind I}.
Implicit Types (t l r s : tree I) (k key : T).
Import BSTree.

Lemma fusion_copy_same t key :
  fst (removeByFusion t key) = fst (removeByCopy t key) /\
  inorder (snd (removeByFusion t key)) = inorder (snd (removeByCopy t key)).
Proof.
  induction t as [|l IHl k i r IHr]; [split; reflexivity|].
  destruct (Z.eq_dec k key) as [->|Hne].
  - destruct (removeByFusion_here l key i r) as (f & Ef & If).
    destruct (removeByCopy_here l key i r) as (c & Ec & Ic).
    rewrite Ef, Ec. simpl. rewrite If, Ic. auto.
  - simpl. destruct (k >? key) eqn:E1.
    + destruct (removeByFusion l key) as [a l1], (removeByCopy l key) as [b l2].
      simpl in *. destruct IHl as [-> ->]. auto.
    + replace (k <? key) with true by lia.
      destruct (removeByFusion r key) as [a r1], (removeByCopy r key) as [b r2].
      simpl in *. destruct IHr as [-> ->]. auto.
Qed.

(** Both removals rebuild the path to the node of [key] as it was and work
    on the subtree found there. *)
Lemma removeByFusion_at_path t key :
  at_path (path_to t key) (snd (removeByFusion t key)) =
  snd (removeByFusion (at_path (path_to t key) t) key).
Proof.
  induction t as [|l IHl k i r IHr]; [reflexivity|].
  cbn [path_to]. destruct (k >? key) eqn:E1; [|destruct (k <? key) eqn:E2].
  - cbn [removeByFusion at_path]. rewrite E1.
    destruct (removeByFusion l key) as [a l1]. exact IHl.
  - cbn [removeByFusion at_path]. rewrite E1, E2.
    destruct (removeByFusion r key) as [a r1]. exact IHr.
  - reflexivity.
Qed.

Lemma removeByCopy_at_path t key :
  at_path (path_to t key) (snd (removeByCopy t key)) =
  snd (removeByCopy (at_path (path_to t key) t) key).
Proof.
  induction t as [|l IHl k i r IHr]; [reflexivity|].
  cbn [path_to]. destruct (k >? key) eqn:E1; [|destruct (k <? key) eqn:E2].
  - cbn [removeByCopy at_path]. rewrite E1.
    destruct (removeByCopy l key) as [a l1]. exact IHl.
  - cbn [removeByCopy at_path]. rewrite E1, E2.
    destruct (removeByCopy r key) as [a r1]. exact IHr.
  - reflexivity.
Qed.

Lemma height_set_findMax t s : height s <= height (set_findMax t s).
Proof.
  induction t as [|l _ k i r IH]; [cbn; lia|].
  destruct r as [|rl rk ri rr]; [cbn; lia|].
  rewrite set_findMax_step. cbn [height].
  pose proof (height_nonneg l). lia.
Qed.

End FusionCopy.

(** ** Removal of the least and of the greatest key *)
Section Extremes.
Context {I : Type} {NK : NodeKind I}.
Implicit Types (t l r s : tree I) (k key : T).
Import BSTree.

Lemma size_inorder t : length (inorder t) = size t.
Proof.
  induction t as [|l IHl k i r IHr]; [reflexivity|].
  simpl. rewrite length_app. simpl. lia.
Qed.

Lemma removeMin_node l k i r :
  exists a t', removeMin (Node l k i r) = (Some a, t') /\
               inorder (Node l k i r) = a :: inorder t'.
Proof.
  destruct (findMin_lens l k i r) as (post & mr & mk & mi & E1 & E2 & E3).
  exists mk, (set_findMin (Node l k i r) mr).
  unfold removeMin. rewrite E1. cbn [removeByFusion].
  rewrite Z.gtb_ltb, Z.ltb_irrefl. split; [reflexivity|].
  rewrite E2, E3. reflexivity.
Qed.

Lemma removeMax_node l k i r :
  exists b t', removeMax (Node l k i r) = (Some b, t') /\
               inorder (Node l k i r) = inorder t' ++ [b].
Proof.
  destruct (findMax_lens l k i r) as (pre & ml & mk & mi & E1 & E2 & E3).
  destruct (removeByFusion_here ml mk mi Leaf) as (m' & Em & Im).
  exists mk, (set_findMax (Node l k i r) m').
  unfold removeMax. rewrite E1, Em. split; [reflexivity|].
  rewrite E2, E3, Im. cbn [inorder]. rewrite app_nil_r, app_assoc.
  reflexivity.
Qed.

(** The drain loop empties the tree within [size t] rounds; the keys taken
    by [removeMin], followed by those taken by [removeMax] read backwards,
    are the in-order sequence. *)
Lemma drain_inorder (rounds : nat) t :
  (size t <= rounds)%nat ->
  exists mins maxs,
    drain rounds t = (mins, maxs, Leaf) /\
    mins ++ rev maxs = inorder t.
Proof.
  revert t. induction rounds as [|n IH]; intros t Hs.
  - destruct t; [|simpl in Hs; lia]. exists [], []. auto.
  - destruct t as [|l k i r]; [exists [], []; auto|].
    cbn [drain isEmpty].
    destruct (removeMin_node l k i r) as (a & t1 & E1 & I1). rewrite E1.
    destruct t1 as [|l1 k1 i1 r1].
    + exists [a], []. cbn [removeMax]. rewrite I1. auto.
    + destruct (removeMax_node l1 k1 i1 r1) as (b & t2 & E2 & I2).
      rewrite E2.
      destruct (IH t2) as (mins & maxs & E3 & I3).
      { assert (S (S (size t2)) = size (Node l k i r)) as Hl.
        { rewrite <- !size_inorder, I1. cbn [length].
          rewrite I2, length_app. cbn [length]. lia. }
        lia. }
      rewrite E3. exists (a :: mins), (b :: maxs). split; [reflexivity|].
      rewrite I1, I2. simpl. rewrite app_assoc, I3. reflexivity.
Qed.

(** Inserting a key that is not stored and removing it at once gives the
    tree back, node by node. *)
Lemma insert_removeByCopy t key :
  ~ In key (inorder t) ->
  exists t', insert t key = (true, t') /\
             removeByCopy t' key = (Some key, t).
Proof.
  induction t as [|l IHl k i r IHr]; intros Hin.
  - eexists. split; [reflexivity|]. simpl.
    rewrite Z.gtb_ltb, Z.ltb_irrefl. reflexivity.
  - simpl in Hin. rewrite in_app_iff in Hin. simpl in Hin.
    assert (Hk : key <> k) by (intros ->; tauto).
    simpl. destruct (key <? k) eqn:E1.
    + destruct IHl as (l' & E & E'); [tauto|]. rewrite E.
      eexists. split; [reflexivity|]. simpl.
      replace (k >? key) with true by lia. rewrite E'. reflexivity.
    + replace (key >? k) with true by lia.
      destruct IHr as (r' & E & E'); [tauto|]. rewrite E.
      eexists. split; [reflexivity|]. simpl.
      replace (k >? key) with false by lia.
      replace (k <? key) with true by lia. rewrite E'. reflexivity.
Qed.

Lemma insert_removeByFusion t key :
  ~ In key (inorder t) ->
  exists t', insert t key = (true, t') /\
             removeByFusion t' key = (Some key, t).
Proof.
  induction t as [|l IHl k i r IHr]; intros Hin.
  - eexists. split; [reflexivity|]. simpl.
    rewrite Z.gtb_ltb, Z.ltb_irrefl. reflexivity.
  - simpl in Hin. rewrite in_app_iff in Hin. simpl in Hin.
    assert (Hk : key <> k) by (intros ->; tauto).
    simpl. destruct (key <? k) eqn:E1.
    + destruct IHl as (l' & E & E'); [tauto|]. rewrite E.
      eexists. split; [reflexivity|]. simpl.
      replace (k >? key) with true by lia. rewrite E'. reflexivity.
    + replace (key >? k) with true by lia.
      destruct IHr as (r' & E & E'); [tauto|]. rewrite E.
      eexists. split; [reflexivity|]. simpl.
      replace (k >? key) with false by lia.
      replace (k <? key) with true by lia. rewrite E'. reflexivity.
Qed.

(** Chained insertion of keys that are pairwise distinct and not stored. *)
Lemma insert_all_spec (keys : list T) t :
  bst t -> NoDup keys -> (forall x, In x keys -> ~ In x (inorder t)) ->
  bst (insert_all t keys) /\
  Permutation (keys ++ inorder t) (inorder (insert_all t keys)).
Proof.
  revert t. induction keys as [|a keys IH]; intros t Hb Hn Hd.
  - simpl. auto.
  - inversion Hn as [|? ? Ha Hn']; subst.
    destruct (insert_absent t a) as (t' & xs & ys & E & Ea & Eb & Hf).
    { apply Hd. left. reflexivity. }
    assert (Hb' : bst t').
    { pose proof (insert_bst t a Hb) as H. rewrite E in H. exact H. }
    destruct (IH t' Hb' Hn') as (H1 & H2).
    { intros x Hx. rewrite Eb, in_app_iff. simpl.
      specialize (Hd x (or_intror Hx)). rewrite Ea, in_app_iff in Hd.
      intros [H|[H|H]]; [tauto| |tauto]. subst x. contradiction. }
    unfold insert_all in *. cbn [fold_left]. rewrite E. cbn [snd].
    split; [exact H1|].
    etransitivity; [|exact H2]. rewrite Ea, Eb. simpl.
    rewrite Permutation_middle. apply Permutation_app_head.
    apply Permutation_middle.
Qed.

End Extremes.

(** ** AVLTree: removal of the least and of the greatest key, chained
    insertion *)
Section AVLExtremes.
Import BSTree.
Implicit Types (t l r s : tree Z) (k key h : Z).

Lemma hpos_findMax t : hpos t -> hpos (findMax t).
Proof.
  induction t as [|l _ k h r IH]; [auto|].
  destruct r as [|rl rk rh rr]; [auto|].
  intros (_ & Hr & _). rewrite findMax_step. auto.
Qed.

Lemma hpos_set_findMax t s : hpos t -> hpos s -> hpos (set_findMax t s).
Proof.
  induction t as [|l _ k h r IH]; [auto|].
  destruct r as [|rl rk rh rr]; [auto|].
  intros (Hl & Hr & Hh) Hs. rewrite set_findMax_step.
  cbn [hpos]. auto.
Qed.

Lemma hpos_findMin t : hpos t -> hpos (findMin t).
Proof.
  induction t as [|l IH k h r _]; [auto|].
  destruct l as [|ll lk lh lr]; [auto|].
  intros (Hl & _ & _). rewrite findMin_step. auto.
Qed.

Lemma hpos_set_findMin t s : hpos t -> hpos s -> hpos (set_findMin t s).
Proof.
  induction t as [|l IH k h r _]; [auto|].
  destruct l as [|ll lk lh lr]; [auto|].
  intros (Hl & Hr & Hh) Hs. rewrite set_findMin_step.
  cbn [hpos]. auto.
Qed.

Lemma avl_removeMin_node l k h r :
  hpos (Node l k h r) ->
  exists a t', AVLTree.removeMin (Node l k h r) = Some (Some a, t') /\
               inorder (Node l k h r) = a :: inorder t' /\ hpos t'.
Proof.
  intros Hp.
  destruct (findMin_lens l k h r) as (post & mr & mk & mi & E1 & E2 & E3).
  exists mk, (set_findMin (Node l k h r) mr).
  pose proof (hpos_findMin _ Hp) as Hm. rewrite E1 in Hm.
  unfold AVLTree.removeMin. rewrite E1. cbn [AVLTree.remove].
  rewrite Z.ltb_irrefl, Z.gtb_ltb, Z.ltb_irrefl. split; [reflexivity|].
  split.
  - rewrite E2, E3. reflexivity.
  - apply hpos_set_findMin; [exact Hp|apply Hm].
Qed.

Lemma avl_removeMax_node l k h r :
  hpos (Node l k h r) ->
  exists b t', AVLTree.removeMax (Node l k h r) = Some (Some b, t') /\
               inorder (Node l k h r) = inorder t' ++ [b] /\ hpos t'.
Proof.
  intros Hp.
  destruct (findMax_lens l k h r) as (pre & ml & mk & mi & E1 & E2 & E3).
  pose proof (hpos_findMax _ Hp) as Hm. rewrite E1 in Hm.
  destruct (avl_remove_here ml mk mi Leaf Hm) as (m' & Em & Im & Hm').
  exists mk, (set_findMax (Node l k h r) m').
  unfold AVLTree.removeMax. rewrite E1, Em. split; [reflexivity|]. split.
  - rewrite E2, E3, Im. cbn [inorder]. rewrite app_nil_r, app_assoc.
    reflexivity.
  - apply hpos_set_findMax; assumption.
Qed.

Lemma avl_drain_inorder (rounds : nat) t :
  hpos t -> (size t <= rounds)%nat ->
  exists mins maxs,
    avl_drain rounds t = Some (mins, maxs, Leaf) /\
    mins ++ rev maxs = inorder t.
Proof.
  revert t. induction rounds as [|n IH]; intros t Hp Hs.
  - destruct t; [|simpl in Hs; lia]. exists [], []. auto.
  - destruct t as [|l k h r]; [exists [], []; auto|].
    cbn [avl_drain isEmpty].
    destruct (avl_removeMin_node l k h r Hp) as (a & t1 & E1 & I1 & P1).
    rewrite E1. destruct t1 as [|l1 k1 h1 r1].
    + exists [a], []. cbn [AVLTree.removeMax]. rewrite I1. auto.
    + destruct (avl_removeMax_node l1 k1 h1 r1 P1) as (b & t2 & E2 & I2 & P2).
      rewrite E2.
      destruct (IH t2 P2) as (mins & maxs & E3 & I3).
      { assert (S (S (size t2)) = size (Node l k h r)) as Hl.
        { rewrite <- !size_inorder, I1. cbn [length].
          rewrite I2, length_app. cbn [length]. lia. }
        lia. }
      rewrite E3. exists (a :: mins), (b :: maxs). split; [reflexivity|].
      rewrite I1, I2. simpl. rewrite app_assoc, I3. reflexivity.
Qed.

Lemma avl_insert_all_spec (keys : list T) t :
  hpos t -> bst t -> NoDup keys ->
  (forall x, In x keys -> ~ In x (inorder t)) ->
  exists t', AVLTree.insert_all t keys = Some t' /\ hpos t' /\ bst t' /\
             Permutation (keys ++ inorder t) (inorder t').
Proof.
  revert t. induction keys as [|a keys IH]; intros t Hp Hb Hn Hd.
  - exists t. simpl. auto.
  - inversion Hn as [|? ? Ha Hn']; subst.
    destruct (avl_insert_absent t a Hp) as (t1 & xs & ys & E & Ea & Eb & Hp1 & Hf).
    { apply Hd. left. reflexivity. }
    assert (Hb1 : bst t1).
    { apply bst_sorted. rewrite Eb. apply bst_sorted in Hb as Hs.
      rewrite Ea in Hs.
      apply sorted_insert_middle; [assumption|apply Hf, Hb|apply Hf, Hb]. }
    destruct (IH t1 Hp1 Hb1 Hn') as (t' & E' & Hp' & Hb' & Hperm).
    { intros x Hx. rewrite Eb, in_app_iff. simpl.
      specialize (Hd x (or_intror Hx)). rewrite Ea, in_app_iff in Hd.
      intros [H|[H|H]]; [tauto| |tauto]. subst x. contradiction. }
    exists t'. cbn [AVLTree.insert_all]. rewrite E.
    split; [exact E'|]. split; [exact Hp'|]. split; [exact Hb'|].
    etransitivity; [|exact Hperm]. rewrite Ea, Eb. simpl.
    rewrite Permutation_middle. apply Permutation_app_head.
    apply Permutation_middle.
Qed.

Lemma avl_insert_remove t key :
  hpos t -> bst t -> ~ In key (inorder t) ->
  exists t1 t2,
    AVLTree.insert t key = Some (true, t1) /\
    AVLTree.remove t1 key = Some (Some key, t2) /\
    inorder t2 = inorder t.
Proof.
  intros Hp Hb Hin.
  destruct (avl_insert_absent t key Hp Hin)
    as (t1 & xs & ys & E & Ea & Eb & Hp1 & Hf).
  assert (Hs1 : StronglySorted Z.lt (inorder t1)).
  { rewrite Eb. apply bst_sorted in Hb as Hs. rewrite Ea in Hs.
    apply sorted_insert_middle; [assumption|apply Hf, Hb|apply Hf, Hb]. }
  destruct (avl_remove_present t1 key Hp1) as (t2 & xs' & ys' & E' & Ea' & Eb' & _).
  { apply bst_sorted, Hs1. }
  { rewrite Eb, in_app_iff. simpl. auto. }
  exists t1, t2. split; [exact E|]. split; [exact E'|].
  rewrite Ea, Eb'. rewrite Ea' in Eb.
  destruct (split_unique key xs' ys' xs ys) as [-> ->]; auto.
  - rewrite Ea' in Hs1. apply sorted_middle in Hs1.
    destruct Hs1 as (_ & _ & Hlt & _). rewrite Forall_forall in Hlt.
    intros H. specialize (Hlt _ H). lia.
  - rewrite Ea, in_app_iff in Hin. tauto.
Qed.

End AVLExtremes.

(** ** Termination: a call stack of [size t + 1] frames is enough *)
Section BoundedFacts.
Context {I : Type} {NK : NodeKind I}.
Implicit Types (t l r s : tree I) (k key : T) (n fuel : nat).

Lemma child_wf : well_founded (@child I).
Proof.
  intros t. induction t as [|l IHl k i r IHr].
  - constructor. intros y H. inversion H.
  - constructor. intros y H. inversion H; subst; assumption.
Qed.

Lemma child_size (c p : tree I) : child c p -> (size c < size p)%nat.
Proof. intros H. destruct H; simpl; lia. Qed.

Lemma bounded_get fuel t key :
  (size t < fuel)%nat -> Bounded.get fuel t key = Some (BSTree.get t key).
Proof.
  revert t. induction fuel as [|n IH]; intros t H; [lia|].
  destruct t as [|l k i r]; [reflexivity|]. cbn [Bounded.get BSTree.get].
  assert (Hl : (size l < n)%nat) by (simpl in H; lia).
  assert (Hr : (size r < n)%nat) by (simpl in H; lia).
  rewrite (IH l Hl), (IH r Hr).
  destruct (key <? k), (key >? k); reflexivity.
Qed.

Lemma bounded_getMax_loop t fuel :
  (size t < S (S fuel))%nat ->
  Bounded.getMax_loop fuel t = Some (BSTree.getMax t).
Proof.
  revert fuel. induction t as [|l _ k i r IH]; intros fuel H; [destruct fuel; reflexivity|].
  destruct r as [|rl rk ri rr]; [destruct fuel; reflexivity|].
  destruct fuel as [|n]; [simpl in H; lia|].
  change (Bounded.getMax_loop n (Node rl rk ri rr) =
          Some (BSTree.getMax (Node rl rk ri rr))).
  apply IH. simpl in *. lia.
Qed.

Lemma bounded_getMin_loop t fuel :
  (size t < S (S fuel))%nat ->
  Bounded.getMin_loop fuel t = Some (BSTree.getMin t).
Proof.
  revert fuel. induction t as [|l IH k i r _]; intros fuel H; [destruct fuel; reflexivity|].
  destruct l as [|ll lk li lr]; [destruct fuel; reflexivity|].
  destruct fuel as [|n]; [simpl in H; lia|].
  change (Bounded.getMin_loop n (Node ll lk li lr) =
          Some (BSTree.getMin (Node ll lk li lr))).
  apply IH. simpl in *. lia.
Qed.

Lemma bounded_insert fuel t key :
  (size t < fuel)%nat ->
  Bounded.insert fuel t key = Some (BSTree.insert t key).
Proof.
  revert t. induction fuel as [|n IH]; intros t H; [lia|].
  destruct t as [|l k i r]; [reflexivity|].
  cbn [Bounded.insert BSTree.insert].
  assert (Hl : (size l < n)%nat) by (simpl in H; lia).
  assert (Hr : (size r < n)%nat) by (simpl in H; lia).
  rewrite (IH l Hl), (IH r Hr).
  destruct (key <? k), (key >? k),
    (BSTree.insert l key), (BSTree.insert r key); reflexivity.
Qed.

Lemma bounded_findMax fuel t :
  (size t < fuel)%nat -> Bounded.findMax fuel t = Some (BSTree.findMax t).
Proof.
  revert t. induction fuel as [|n IH]; intros t H; [lia|].
  destruct t as [|l k i r]; [reflexivity|].
  destruct r as [|rl rk ri rr]; [reflexivity|].
  change (Bounded.findMax n (Node rl rk ri rr) =
          Some (BSTree.findMax (Node rl rk ri rr))).
  apply IH. simpl in *. lia.
Qed.

Lemma bounded_findMin fuel t :
  (size t < fuel)%nat -> Bounded.findMin fuel t = Some (BSTree.findMin t).
Proof.
  revert t. induction fuel as [|n IH]; intros t H; [lia|].
  destruct t as [|l k i r]; [reflexivity|].
  destruct l as [|ll lk li lr]; [reflexivity|].
  change (Bounded.findMin n (Node ll lk li lr) =
          Some (BSTree.findMin (Node ll lk li lr))).
  apply IH. simpl in *. lia.
Qed.

Lemma bounded_removeByCopy fuel t key :
  (size t < fuel)%nat ->
  Bounded.removeByCopy fuel t key = Some (BSTree.removeByCopy t key).
Proof.
  revert t. induction fuel as [|n IH]; intros t H; [lia|].
  destruct t as [|l k i r]; [reflexivity|].
  cbn [Bounded.removeByCopy BSTree.removeByCopy].
  assert (Hl : (size l < n)%nat) by (simpl in H; lia).
  assert (Hr : (size r < n)%nat) by (simpl in H; lia).
  rewrite (IH l Hl), (IH r Hr), (bounded_findMax n l Hl).
  destruct (k >? key), (k <? key),
    (BSTree.removeByCopy l key), (BSTree.removeByCopy r key); try reflexivity.
  destruct l; [reflexivity|]. destruct (BSTree.findMax _); reflexivity.
Qed.

Lemma bounded_removeByFusion fuel t key :
  (size t < fuel)%nat ->
  Bounded.removeByFusion fuel t key = Some (BSTree.removeByFusion t key).
Proof.
  revert t. induction fuel as [|n IH]; intros t H; [lia|].
  destruct t as [|l k i r]; [reflexivity|].
  cbn [Bounded.removeByFusion BSTree.removeByFusion].
  assert (Hl : (size l < n)%nat) by (simpl in H; lia).
  assert (Hr : (size r < n)%nat) by (simpl in H; lia).
  rewrite (IH l Hl), (IH r Hr), (bounded_findMax n l Hl).
  destruct (k >? key), (k <? key),
    (BSTree.removeByFusion l key), (BSTree.removeByFusion r key);
    try reflexivity.
  destruct l; [reflexivity|]. destruct (BSTree.findMax _); reflexivity.
Qed.

Lemma size_findMax t : (size (BSTree.findMax t) <= size t)%nat.
Proof.
  induction t as [|l _ k i r IH]; [simpl; lia|].
  destruct r as [|rl rk ri rr]; [cbn [BSTree.findMax]; lia|].
  rewrite findMax_step. cbn [size] in *. lia.
Qed.

Lemma size_findMin t : (size (BSTree.findMin t) <= size t)%nat.
Proof.
  induction t as [|l IH k i r _]; [simpl; lia|].
  destruct l as [|ll lk li lr]; [cbn [BSTree.findMin]; lia|].
  rewrite findMin_step. cbn [size] in *. lia.
Qed.

Lemma bounded_removeMax fuel t :
  (size t < fuel)%nat ->
  Bounded.removeMax fuel t = Some (BSTree.removeMax t).
Proof.
  intros H. destruct t as [|l k i r]; [reflexivity|].
  unfold Bounded.removeMax, BSTree.removeMax.
  rewrite (bounded_findMax _ _ H).
  pose proof (size_findMax (Node l k i r)) as Hs.
  destruct (BSTree.findMax (Node l k i r)) as [|ml mk mi mr]; [reflexivity|].
  rewrite bounded_removeByFusion by lia.
  destruct (BSTree.removeByFusion _ _); reflexivity.
Qed.

Lemma bounded_removeMin fuel t :
  (size t < fuel)%nat ->
  Bounded.removeMin fuel t = Some (BSTree.removeMin t).
Proof.
  intros H. destruct t as [|l k i r]; [reflexivity|].
  unfold Bounded.removeMin, BSTree.removeMin.
  rewrite (bounded_findMin _ _ H).
  pose proof (size_findMin (Node l k i r)) as Hs.
  destruct (BSTree.findMin (Node l k i r)) as [|ml mk mi mr]; [reflexivity|].
  rewrite bounded_removeByFusion by lia.
  destruct (BSTree.removeByFusion _ _); reflexivity.
Qed.

Lemma bounded_destroy fuel t :
  (size t < fuel)%nat -> Bounded.destroy fuel t = Some (BSTree.destroy t).
Proof.
  revert t. induction fuel as [|n IH]; intros t H; [lia|].
  destruct t as [|l k i r]; [reflexivity|].
  cbn [Bounded.destroy BSTree.destroy].
  rewrite !IH by (simpl in H; lia). reflexivity.
Qed.

Lemma bounded_inorder fuel t :
  (size t < fuel)%nat -> Bounded.inorder fuel t = Some (BSTree.inorder t).
Proof.
  revert t. induction fuel as [|n IH]; intros t H; [lia|].
  destruct t as [|l k i r]; [reflexivity|].
  cbn [Bounded.inorder BSTree.inorder].
  rewrite !IH by (simpl in H; lia). reflexivity.
Qed.

Lemma bounded_preorder fuel t :
  (size t < fuel)%nat -> Bounded.preorder fuel t = Some (BSTree.preorder t).
Proof.
  revert t. induction fuel as [|n IH]; intros t H; [lia|].
  destruct t as [|l k i r]; [reflexivity|].
  cbn [Bounded.preorder BSTree.preorder].
  rewrite !IH by (simpl in H; lia). reflexivity.
Qed.

Lemma bounded_postorder fuel t :
  (size t < fuel)%nat -> Bounded.postorder fuel t = Some (BSTree.postorder t).
Proof.
  revert t. induction fuel as [|n IH]; intros t H; [lia|].
  destruct t as [|l k i r]; [reflexivity|].
  cbn [Bounded.postorder BSTree.postorder].
  rewrite !IH by (simpl in H; lia). reflexivity.
Qed.

End BoundedFacts.

Section BoundedAVL.
Implicit Types (t l r : tree Z) (k key : T) (n fuel : nat).

Lemma bounded_avl_insert fuel t key :
  (size t < fuel)%nat ->
  Bounded.avl_insert fuel t key = Some (AVLTree.insert t key).
Proof.
  revert t. induction fuel as [|n IH]; intros t H; [lia|].
  destruct t as [|l k h r]; [reflexivity|].
  cbn [Bounded.avl_insert AVLTree.insert].
  assert (Hl : (size l < n)%nat) by (simpl in H; lia).
  assert (Hr : (size r < n)%nat) by (simpl in H; lia).
  rewrite (IH l Hl), (IH r Hr).
  destruct (key =? k), (key <? k); try reflexivity.
  - destruct (AVLTree.insert l key) as [[[] ?]|]; reflexivity.
  - destruct (AVLTree.insert r key) as [[[] ?]|]; reflexivity.
Qed.

Lemma pullMax_step l k h rl rk rh rr :
  AVLTree.pullMax (Node l k h (Node rl rk rh rr)) =
  match AVLTree.pullMax (Node rl rk rh rr) with
  | None => None
  | Some (max, r') =>
      match AVLTree.balance (Node l k h r') with
      | None => None
      | Some m => Some (max, m)
      end
  end.
Proof. reflexivity. Qed.

Lemma bounded_pullMax fuel t :
  (size t < fuel)%nat -> Bounded.pullMax fuel t = Some (AVLTree.pullMax t).
Proof.
  revert t. induction fuel as [|n IH]; intros t H; [lia|].
  destruct t as [|l k h r]; [reflexivity|].
  destruct r as [|rl rk rh rr]; [reflexivity|].
  cbn [Bounded.pullMax].
  rewrite IH by (simpl in *; lia). rewrite pullMax_step.
  destruct (AVLTree.pullMax (Node rl rk rh rr)) as [[? ?]|]; reflexivity.
Qed.

Lemma bounded_avl_remove fuel t key :
  (size t < fuel)%nat ->
  Bounded.avl_remove fuel t key = Some (AVLTree.remove t key).
Proof.
  revert t. induction fuel as [|n IH]; intros t H; [lia|].
  destruct t as [|l k h r]; [reflexivity|].
  cbn [Bounded.avl_remove AVLTree.remove].
  assert (Hl : (size l < n)%nat) by (simpl in H; lia).
  assert (Hr : (size r < n)%nat) by (simpl in H; lia).
  rewrite (IH l Hl), (IH r Hr), (bounded_pullMax n l Hl).
  destruct (key <? k); [|destruct (key >? k)].
  - destruct (AVLTree.remove l key) as [[[] ?]|]; reflexivity.
  - destruct (AVLTree.remove r key) as [[[] ?]|]; reflexivity.
  - destruct l; [reflexivity|].
    destruct (AVLTree.pullMax _) as [[[] ?]|]; reflexivity.
Qed.

Lemma bounded_avl_removeMax fuel t :
  (size t < fuel)%nat ->
  Bounded.avl_removeMax fuel t = Some (AVLTree.removeMax t).
Proof.
  intros H. destruct t as [|l k h r]; [reflexivity|].
  unfold Bounded.avl_removeMax, AVLTree.removeMax.
  rewrite (bounded_findMax _ _ H).
  pose proof (size_findMax (Node l k h r)) as Hs.
  destruct (BSTree.findMax (Node l k h r)) as [|ml mk mi mr]; [reflexivity|].
  rewrite bounded_avl_remove by lia.
  destruct (AVLTree.remove _ _) as [[? ?]|]; reflexivity.
Qed.

Lemma bounded_avl_removeMin fuel t :
  (size t < fuel)%nat ->
  Bounded.avl_removeMin fuel t = Some (AVLTree.removeMin t).
Proof.
  intros H. destruct t as [|l k h r]; [reflexivity|].
  unfold Bounded.avl_removeMin, AVLTree.removeMin.
  rewrite (bounded_findMin _ _ H).
  pose proof (size_findMin (Node l k h r)) as Hs.
  destruct (BSTree.findMin (Node l k h r)) as [|ml mk mi mr]; [reflexivity|].
  rewrite bounded_avl_remove by lia.
  destruct (AVLTree.remove _ _) as [[? ?]|]; reflexivity.
Qed.

End BoundedAVL.

(** * The claims of the specification *)
Section Claims.
Import BSTree.

(** [insert] and [remove] of AVLTree, called on the root, keep the AVL
    invariant of the data model: this is what [removeMax] and [removeMin]
    miss. *)
Lemma avl_insert_remove_keep_invariant (t : tree Z) (key : T) :
  avl_inv t ->
  (exists b t', AVLTree.insert t key = Some (b, t') /\ avl_inv t') /\
  (exists res t', AVLTree.remove t key = Some (res, t') /\ avl_inv t').
Proof.
  intros Ha. split.
  - destruct (insert_avl t key Ha) as (b & t' & E & H & _). eauto.
  - destruct (remove_avl t key Ha) as (res & t' & E & H & _). eauto.
Qed.

(** C1. The AVL invariant (heights of the children of every node differ by
    at most one, every cached height is the recursive height) after
    [removeMax] and [removeMin]: evaluated on four trees built by
    insertion, each satisfying the invariant. [removeMax] and [removeMin]
    call [remove] on the slot of the extreme node, so no node above it is
    rebalanced or gets its height recomputed: after [3,2,4,1] the removal
    of 4 leaves the root with children of heights 2 and 0; after [1,2] the
    removal of 2 leaves the root, now a leaf, with cached height 2; and
    likewise for [removeMin]. *)
Theorem avl_removeMax_removeMin_break_invariant :
  (let t := Node (Node (Node Leaf 1 1 Leaf) 2 2 Leaf) 3 3 (Node Leaf 4 1 Leaf) in
   let t' := Node (Node (Node Leaf 1 1 Leaf) 2 2 Leaf) 3 3 Leaf in
   AVLTree.insert_all Leaf [3; 2; 4; 1] = Some t /\ avl_inv t /\
   AVLTree.removeMax t = Some (Some 4, t') /\
   height (left_of t') - height (right_of t') = 2 /\ ~ avl_inv t') /\
  (let t := Node Leaf 1 2 (Node Leaf 2 1 Leaf) in
   let t' := Node Leaf 1 2 Leaf in
   AVLTree.insert_all Leaf [1; 2] = Some t /\ avl_inv t /\
   AVLTree.removeMax t = Some (Some 2, t') /\
   AVLTree.height_of t' = 2 /\ height t' = 1 /\ ~ cached_ok t') /\
  (let t := Node (Node Leaf 1 1 Leaf) 2 3 (Node Leaf 3 2 (Node Leaf 4 1 Leaf)) in
   let t' := Node Leaf 2 3 (Node Leaf 3 2 (Node Leaf 4 1 Leaf)) in
   AVLTree.insert_all Leaf [2; 1; 3; 4] = Some t /\ avl_inv t /\
   AVLTree.removeMin t = Some (Some 1, t') /\
   height (left_of t') - height (right_of t') = -2 /\ ~ avl_inv t') /\
  (let t := Node (Node Leaf 1 1 Leaf) 2 2 Leaf in
   let t' := Node Leaf 2 2 Leaf in
   AVLTree.insert_all Leaf [2; 1] = Some t /\ avl_inv t /\
   AVLTree.removeMin t = Some (Some 1, t') /\
   AVLTree.height_of t' = 2 /\ height t' = 1 /\ ~ cached_ok t').
Proof.
  repeat split; try reflexivity;
    try (cbn [avl_inv cached_ok height]; lia);
    try (cbn [avl_inv cached_ok height]; intros H; lia).
Qed.

(** C2. Keys that are pairwise distinct, inserted one after the other into
    an empty BSTree or an empty AVLTree: the in-order traversal is strictly
    ascending and consists of exactly the inserted keys. *)
Theorem insert_all_inorder_sorted (keys : list T) :
  NoDup keys ->
  (StronglySorted Z.lt (inorder (insert_all (Leaf : tree unit) keys)) /\
   Permutation keys (inorder (insert_all (Leaf : tree unit) keys))) /\
  (exists t, AVLTree.insert_all Leaf keys = Some t /\
             StronglySorted Z.lt (inorder t) /\
             Permutation keys (inorder t)).
Proof.
  intros Hn. split.
  - destruct (insert_all_spec keys (Leaf : tree unit)) as (H1 & H2);
      [exact Logic.I|exact Hn|intros x _ []|].
    split; [apply bst_sorted, H1|].
    cbn [inorder] in H2. rewrite app_nil_r in H2. exact H2.
  - destruct (avl_insert_all_spec keys Leaf) as (t & E & _ & H1 & H2);
      [exact Logic.I|exact Logic.I|exact Hn|intros x _ []|].
    exists t. split; [exact E|]. split; [apply bst_sorted, H1|].
    cbn [inorder] in H2. rewrite app_nil_r in H2. exact H2.
Qed.

Lemma insert_all_inorder_sorted_witness :
  NoDup [50; 10; 2] /\
  inorder (insert_all (Leaf : tree unit) [50; 10; 2]) = [2; 10; 50] /\
  AVLTree.insert_all Leaf [50; 10; 2] =
    Some (Node (Node Leaf 2 1 Leaf) 10 2 (Node Leaf 50 1 Leaf)) /\
  ((StronglySorted Z.lt (inorder (insert_all (Leaf : tree unit) [50; 10; 2])) /\
    Permutation [50; 10; 2]
      (inorder (insert_all (Leaf : tree unit) [50; 10; 2]))) /\
   (exists t, AVLTree.insert_all Leaf [50; 10; 2] = Some t /\
              StronglySorted Z.lt (inorder t) /\
              Permutation [50; 10; 2] (inorder t))).
Proof.
  assert (Hn : NoDup [50; 10; 2]).
  { repeat constructor; simpl; intuition lia. }
  split; [exact Hn|]. split; [reflexivity|]. split; [reflexivity|].
  exact (insert_all_inorder_sorted [50; 10; 2] Hn).
Defined.

(** C3, as stated, fails. In the BSTree built by inserting 3, 1, 2, 4 the
    node of 3 has two children. After [remove(3, FUSION)] the node that
    took its place has a right subtree of height 2, after
    [remove(3, COPY)] of height 1; the key 4, root of the right subtree of
    the removed node, lies 2 links below the root instead of 1; the whole
    tree has height 3 instead of 2. *)
Lemma fusion_deeper_counterexample :
  let t : tree unit :=
    Node (Node Leaf 1 tt (Node Leaf 2 tt Leaf)) 3 tt (Node Leaf 4 tt Leaf) in
  insert_all Leaf [3; 1; 2; 4] = t /\ bst t /\
  at_path (path_to t 3) t = t /\
  left_of t <> Leaf /\ right_of t <> Leaf /\
  ~ fusion_not_deeper t 3 /\
  height (right_of (snd (removeByFusion t 3))) = 2 /\
  height (right_of (snd (removeByCopy t 3))) = 1 /\
  depth_of (snd (removeByFusion t 3)) 4 = Some 2%nat /\
  depth_of (snd (removeByCopy t 3)) 4 = Some 1%nat /\
  height (snd (removeByFusion t 3)) = 3 /\
  height (snd (removeByCopy t 3)) = 2.
Proof.
  cbv zeta. split; [reflexivity|]. split.
  { cbn [bst inorder app]. repeat split; repeat constructor; lia. }
  split; [reflexivity|]. split; [discriminate|]. split; [discriminate|].
  split.
  { unfold fusion_not_deeper. vm_compute. intros [_ H]. apply H. reflexivity. }
  repeat split; reflexivity.
Qed.

(** C3, amended. The node of [key] has two children, [l] and [r]. At its
    place after the removal, the left subtree under fusion is never deeper
    than under copy; the right subtree under copy is [r] itself, and under
    fusion it is never shallower than [r], and strictly deeper when [l] has
    a right child (then [r] hangs below the greatest node of [l]); when [l]
    has no right child the two right subtrees are the same. *)
Theorem fusion_left_not_deeper_right_not_shallower
    (t l r : tree unit) (key : T) (i : unit) :
  at_path (path_to t key) t = Node l key i r ->
  l <> Leaf -> r <> Leaf ->
  let f := at_path (path_to t key) (snd (removeByFusion t key)) in
  let c := at_path (path_to t key) (snd (removeByCopy t key)) in
  height (left_of f) <= height (left_of c) /\
  right_of c = r /\
  height (right_of c) <= height (right_of f) /\
  (right_of l <> Leaf -> height (right_of c) < height (right_of f)) /\
  (right_of l = Leaf -> right_of f = right_of c).
Proof.
  intros Ht Hl Hr f c. subst f c.
  rewrite removeByFusion_at_path, removeByCopy_at_path, Ht.
  destruct l as [|ll lk li lr]; [contradiction|].
  cbn [removeByFusion removeByCopy].
  rewrite Z.gtb_ltb, Z.ltb_irrefl.
  destruct lr as [|a b e d].
  - cbn. repeat split; try lia. intros H; contradiction.
  - destruct (findMax_lens a b e d) as (pre & ml & mk & mi & E1 & _ & _).
    rewrite findMax_step, E1, !set_findMax_step.
    cbn [snd left_of right_of].
    pose proof (height_set_findMax (Node a b e d) (Node ml mk mi r)) as H1.
    pose proof (height_nonneg ll). pose proof (height_nonneg r).
    pose proof (height_nonneg ml).
    pose proof (height_nonneg (set_findMax (Node a b e d) ml)).
    cbn [height] in *. repeat split; try lia. discriminate.
Qed.

Lemma fusion_left_not_deeper_right_not_shallower_witness :
  let t : tree unit :=
    Node (Node Leaf 1 tt (Node Leaf 2 tt Leaf)) 3 tt (Node Leaf 4 tt Leaf) in
  let f := at_path (path_to t 3) (snd (removeByFusion t 3)) in
  let c := at_path (path_to t 3) (snd (removeByCopy t 3)) in
  height (left_of f) <= height (left_of c) /\
  right_of c = Node Leaf 4 tt Leaf /\
  height (right_of c) <= height (right_of f) /\
  (right_of (Node Leaf 1 tt (Node Leaf 2 tt Leaf)) <> Leaf ->
   height (right_of c) < height (right_of f)) /\
  (right_of (Node Leaf 1 tt (Node Leaf 2 tt Leaf)) = Leaf ->
   right_of f = right_of c).
Proof.
  apply (fusion_left_not_deeper_right_not_shallower
           (Node (Node Leaf 1 tt (Node Leaf 2 tt Leaf)) 3 tt
                 (Node Leaf 4 tt Leaf))
           (Node Leaf 1 tt (Node Leaf 2 tt Leaf)) (Node Leaf 4 tt Leaf) 3 tt).
  - reflexivity.
  - discriminate.
  - discriminate.
Defined.

(** C4. A key that is stored: [insert] returns [false] and the tree is the
    same tree, in a BSTree and in an AVLTree. The AVL part asks nothing of
    the cached heights: the tree comes back with every field as it was,
    also where [balance] would have changed one, so no node of the descent
    path was rebalanced. *)
Theorem insert_duplicate_unchanged :
  (forall (t : tree unit) (key : T),
     bst t -> In key (inorder t) ->
     insert t key = (false, t) /\
     inorder (snd (insert t key)) = inorder t) /\
  (forall (t : tree Z) (key : T),
     bst t -> In key (inorder t) ->
     AVLTree.insert t key = Some (false, t)).
Proof.
  split.
  - intros t key Hb Hin. rewrite (insert_present t key Hb Hin). auto.
  - intros t key Hb Hin. apply avl_insert_present; assumption.
Qed.

Lemma insert_duplicate_unchanged_witness :
  (let t : tree unit := Node (Node Leaf 1 tt Leaf) 2 tt (Node Leaf 3 tt Leaf) in
   insert t 3 = (false, t) /\ inorder (snd (insert t 3)) = inorder t) /\
  (let t : tree Z := Node (Node Leaf 1 7 Leaf) 2 9 Leaf in
   AVLTree.balance t <> Some t /\ AVLTree.insert t 1 = Some (false, t)).
Proof.
  split.
  - apply (proj1 insert_duplicate_unchanged).
    + cbn [bst inorder app]. repeat split; repeat constructor; lia.
    + simpl. auto.
  - split; [discriminate|].
    apply (proj2 insert_duplicate_unchanged).
    + cbn [bst inorder app]. repeat split; repeat constructor; lia.
    + simpl. auto.
Defined.

(** C5. A key that is not stored: [remove], in either mode of the BSTree
    and in the AVLTree, returns [nullptr] and the tree is the same tree;
    [removeMax] and [removeMin] on an empty tree return [nullptr] and leave
    it empty. *)
Theorem remove_absent_unchanged :
  (forall (t : tree unit) (key : T) (mode : eRemove),
     ~ In key (inorder t) ->
     remove_mode t key mode = (None, t) /\ remove t key = (None, t)) /\
  (forall (t : tree Z) (key : T),
     ~ In key (inorder t) -> AVLTree.remove t key = Some (None, t)) /\
  removeMax (Leaf : tree unit) = (None, Leaf) /\
  removeMin (Leaf : tree unit) = (None, Leaf) /\
  AVLTree.removeMax Leaf = Some (None, Leaf) /\
  AVLTree.removeMin Leaf = Some (None, Leaf).
Proof.
  split; [|split; [|repeat split]].
  - intros t key mode Hin. unfold remove. split.
    + destruct mode; cbn [remove_mode].
      * apply removeByCopy_absent, Hin.
      * apply removeByFusion_absent, Hin.
    + apply removeByCopy_absent, Hin.
  - intros t key Hin. apply avl_remove_absent, Hin.
Qed.

Lemma remove_absent_unchanged_witness :
  (let t : tree unit := Node (Node Leaf 1 tt Leaf) 2 tt (Node Leaf 4 tt Leaf) in
   remove_mode t 3 FUSION = (None, t) /\ remove t 3 = (None, t)) /\
  (let t : tree Z := Node (Node Leaf 1 1 Leaf) 2 2 (Node Leaf 4 1 Leaf) in
   AVLTree.remove t 3 = Some (None, t)).
Proof.
  split.
  - apply (proj1 remove_absent_unchanged). simpl. intuition lia.
  - apply (proj1 (proj2 remove_absent_unchanged)). simpl. intuition lia.
Defined.

(** C6. A key that is not stored, inserted and removed at once: the removal
    returns the key and the in-order sequence is the one before the
    insertion. In a BSTree, in either mode, the tree itself is the one
    before the insertion; in an AVLTree the rotations may leave another
    shape with the same sequence. The AVLTree is any tree with the BST
    ordering whose cached heights are at least 1, which the constructor
    and [updateHeight] guarantee; no more is needed for [insert] and
    [remove] to return. *)
Theorem insert_remove_roundtrip :
  (forall (t : tree unit) (key : T) (mode : eRemove),
     ~ In key (inorder t) ->
     exists t1 t2,
       insert t key = (true, t1) /\
       remove_mode t1 key mode = (Some key, t2) /\
       inorder t2 = inorder t /\ t2 = t) /\
  (forall (t : tree Z) (key : T),
     bst t -> hpos t -> ~ In key (inorder t) ->
     exists t1 t2,
       AVLTree.insert t key = Some (true, t1) /\
       AVLTree.remove t1 key = Some (Some key, t2) /\
       inorder t2 = inorder t).
Proof.
  split.
  - intros t key mode Hin. destruct mode; cbn [remove_mode].
    + destruct (insert_removeByCopy t key Hin) as (t1 & E1 & E2).
      exists t1, t. auto.
    + destruct (insert_removeByFusion t key Hin) as (t1 & E1 & E2).
      exists t1, t. auto.
  - intros t key Hb Hp Hin. apply avl_insert_remove; assumption.
Qed.

Lemma insert_remove_roundtrip_witness :
  (let t : tree unit := Node (Node Leaf 1 tt Leaf) 2 tt Leaf in
   exists t1 t2,
     insert t 3 = (true, t1) /\
     remove_mode t1 3 COPY = (Some 3, t2) /\
     inorder t2 = inorder t /\ t2 = t) /\
  (let t : tree Z := Node Leaf 1 2 (Node Leaf 2 1 Leaf) in
   AVLTree.insert t 3 =
     Some (true, Node (Node Leaf 1 1 Leaf) 2 2 (Node Leaf 3 1 Leaf)) /\
   AVLTree.remove (Node (Node Leaf 1 1 Leaf) 2 2 (Node Leaf 3 1 Leaf)) 3 =
     Some (Some 3, Node (Node Leaf 1 1 Leaf) 2 2 Leaf) /\
   exists t1 t2,
     AVLTree.insert t 3 = Some (true, t1) /\
     AVLTree.remove t1 3 = Some (Some 3, t2) /\
     inorder t2 = inorder t).
Proof.
  split.
  - apply (proj1 insert_remove_roundtrip). simpl. intuition lia.
  - split; [reflexivity|]. split; [reflexivity|].
    apply (proj2 insert_remove_roundtrip).
    + cbn [bst inorder app]. repeat split; repeat constructor; lia.
    + cbn [hpos]. repeat split; lia.
    + simpl. intuition lia.
Defined.

Lemma sorted_rev_gt (l : list Z) :
  StronglySorted Z.lt (rev l) -> StronglySorted Z.gt l.
Proof.
  induction l as [|a l IH]; intros H; [constructor|].
  simpl in H. apply sorted_app in H. destruct H as (H1 & _ & H3).
  constructor; [apply IH, H1|].
  rewrite Forall_forall. intros x Hx.
  specialize (H3 x a). rewrite <- in_rev in H3.
  specialize (H3 Hx (or_introl eq_refl)). lia.
Qed.

Lemma drained_sequences (mins maxs ks : list Z) :
  StronglySorted Z.lt ks -> mins ++ rev maxs = ks ->
  Permutation (mins ++ maxs) ks /\ NoDup (mins ++ maxs) /\
  StronglySorted Z.lt mins /\ StronglySorted Z.gt maxs.
Proof.
  intros Hs E. subst ks.
  assert (Hp : Permutation (mins ++ maxs) (mins ++ rev maxs)).
  { apply Permutation_app_head, Permutation_rev. }
  split; [exact Hp|]. split.
  - apply (Permutation_NoDup (Permutation_sym Hp)), sorted_NoDup, Hs.
  - apply sorted_app in Hs. destruct Hs as (H1 & H2 & _).
    split; [exact H1|apply sorted_rev_gt, H2].
Qed.

(** C7. [removeMin] then [removeMax], repeated until the tree is empty (at
    most [size t] rounds are needed): every stored key is returned exactly
    once, [removeMin] returns ascending keys and [removeMax] descending
    ones, and together they are the in-order sequence; the tree left is
    empty, and [getMax] and [getMin] return [nullptr] on it. In a BSTree
    and in an AVLTree (any tree with the BST ordering whose cached heights
    are at least 1; the balance of the tree plays no part). *)
Theorem drain_sorted :
  (forall (t : tree unit) (rounds : nat),
     bst t -> (size t <= rounds)%nat ->
     exists mins maxs t',
       drain rounds t = (mins, maxs, t') /\
       isEmpty t' = true /\ getMax t' = None /\ getMin t' = None /\
       mins ++ rev maxs = inorder t /\
       Permutation (mins ++ maxs) (inorder t) /\ NoDup (mins ++ maxs) /\
       StronglySorted Z.lt mins /\ StronglySorted Z.gt maxs) /\
  (forall (t : tree Z) (rounds : nat),
     bst t -> hpos t -> (size t <= rounds)%nat ->
     exists mins maxs t',
       avl_drain rounds t = Some (mins, maxs, t') /\
       isEmpty t' = true /\ getMax t' = None /\ getMin t' = None /\
       mins ++ rev maxs = inorder t /\
       Permutation (mins ++ maxs) (inorder t) /\ NoDup (mins ++ maxs) /\
       StronglySorted Z.lt mins /\ StronglySorted Z.gt maxs).
Proof.
  split.
  - intros t rounds Hb Hs.
    destruct (drain_inorder rounds t Hs) as (mins & maxs & E & Hi).
    exists mins, maxs, Leaf. repeat (split; [first [exact E|reflexivity|exact Hi]|]).
    apply drained_sequences; [apply bst_sorted, Hb|exact Hi].
  - intros t rounds Hb Hp Hs.
    destruct (avl_drain_inorder rounds t Hp Hs) as (mins & maxs & E & Hi).
    exists mins, maxs, Leaf. repeat (split; [first [exact E|reflexivity|exact Hi]|]).
    apply drained_sequences; [apply bst_sorted, Hb|exact Hi].
Qed.

Lemma drain_sorted_witness :
  (let t : tree unit :=
     Node (Node Leaf 1 tt (Node Leaf 2 tt Leaf)) 3 tt (Node Leaf 4 tt Leaf) in
   drain 4 t = ([1; 2], [4; 3], Leaf) /\
   exists mins maxs t',
     drain 4 t = (mins, maxs, t') /\
     isEmpty t' = true /\ getMax t' = None /\ getMin t' = None /\
     mins ++ rev maxs = inorder t /\
     Permutation (mins ++ maxs) (inorder t) /\ NoDup (mins ++ maxs) /\
     StronglySorted Z.lt mins /\ StronglySorted Z.gt maxs) /\
  (let t : tree Z :=
     Node (Node (Node Leaf 1 1 Leaf) 2 2 Leaf) 3 3 (Node Leaf 4 1 Leaf) in
   avl_drain 4 t = Some ([1; 2], [4; 3], Leaf) /\
   exists mins maxs t',
     avl_drain 4 t = Some (mins, maxs, t') /\
     isEmpty t' = true /\ getMax t' = None /\ getMin t' = None /\
     mins ++ rev maxs = inorder t /\
     Permutation (mins ++ maxs) (inorder t) /\ NoDup (mins ++ maxs) /\
     StronglySorted Z.lt mins /\ StronglySorted Z.gt maxs).
Proof.
  split.
  - split; [reflexivity|]. apply (proj1 drain_sorted).
    + cbn [bst inorder app]. repeat split; repeat constructor; lia.
    + simpl. lia.
  - split; [reflexivity|]. apply (proj2 drain_sorted).
    + cbn [bst inorder app]. repeat split; repeat constructor; lia.
    + cbn [hpos]. repeat split; lia.
    + simpl. lia.
Defined.

(** C8. [remove(key, FUSION)] and [remove(key, COPY)] return the same key
    and leave the same in-order sequence, on every tree and key, so also
    when the node of the key has two children; the two trees can differ in
    shape, as they do after the insertion of 3, 1, 2, 4 and the removal
    of 3. *)
Theorem fusion_copy_same_inorder :
  (forall (t : tree unit) (key : T),
     fst (remove_mode t key FUSION) = fst (remove_mode t key COPY) /\
     inorder (snd (remove_mode t key FUSION)) =
     inorder (snd (remove_mode t key COPY))) /\
  (let t : tree unit :=
     Node (Node Leaf 1 tt (Node Leaf 2 tt Leaf)) 3 tt (Node Leaf 4 tt Leaf) in
   left_of t <> Leaf /\ right_of t <> Leaf /\
   snd (remove_mode t 3 FUSION) =
     Node Leaf 1 tt (Node Leaf 2 tt (Node Leaf 4 tt Leaf)) /\
   snd (remove_mode t 3 COPY) =
     Node (Node Leaf 1 tt Leaf) 2 tt (Node Leaf 4 tt Leaf) /\
   snd (remove_mode t 3 FUSION) <> snd (remove_mode t 3 COPY)).
Proof.
  split.
  - intros t key. cbn [remove_mode]. apply fusion_copy_same.
  - cbv zeta. repeat split; try discriminate; reflexivity.
Qed.

(** C9. Every operation terminates on every tree. The child relation that
    the recursions and loops follow is well-founded, and each of them, run
    under a bound on the number of nested calls (of iterations, for the
    loops of [getMax] and [getMin]), returns the result of the operation as
    soon as the bound exceeds the number of nodes: [get], [getMax],
    [getMin], [insert], [remove] in both modes, [removeMax], [removeMin],
    [findMax], [findMin], [clear], [print] in the three orders, and the
    [insert], [remove], [removeMax], [removeMin] and [pullMax] of
    AVLTree. *)
Theorem operations_terminate :
  well_founded (@child unit) /\ well_founded (@child Z) /\
  (forall (t : tree unit) (key : T) (order : eOrder) (fuel : nat),
     (size t < fuel)%nat ->
     Bounded.get fuel t key = Some (get t key) /\
     Bounded.getMax fuel t = Some (getMax t) /\
     Bounded.getMin fuel t = Some (getMin t) /\
     Bounded.insert fuel t key = Some (insert t key) /\
     Bounded.removeByCopy fuel t key = Some (remove_mode t key COPY) /\
     Bounded.removeByFusion fuel t key = Some (remove_mode t key FUSION) /\
     Bounded.removeMax fuel t = Some (removeMax t) /\
     Bounded.removeMin fuel t = Some (removeMin t) /\
     Bounded.findMax fuel t = Some (findMax t) /\
     Bounded.findMin fuel t = Some (findMin t) /\
     Bounded.clear fuel t = Some (clear t) /\
     Bounded.print fuel t order = Some (print t order)) /\
  (forall (t : tree Z) (key : T) (order : eOrder) (fuel : nat),
     (size t < fuel)%nat ->
     Bounded.get fuel t key = Some (get t key) /\
     Bounded.getMax fuel t = Some (getMax t) /\
     Bounded.getMin fuel t = Some (getMin t) /\
     Bounded.avl_insert fuel t key = Some (AVLTree.insert t key) /\
     Bounded.avl_remove fuel t key = Some (AVLTree.remove t key) /\
     Bounded.avl_removeMax fuel t = Some (AVLTree.removeMax t) /\
     Bounded.avl_removeMin fuel t = Some (AVLTree.removeMin t) /\
     Bounded.pullMax fuel t = Some (AVLTree.pullMax t) /\
     Bounded.clear fuel t = Some (clear t) /\
     Bounded.print fuel t order = Some (print t order)).
Proof.
  split; [apply child_wf|]. split; [apply child_wf|].
  assert (Hmax : forall (I : Type) (t : tree I) fuel,
             (size t < fuel)%nat -> Bounded.getMax fuel t = Some (getMax t)).
  { intros I t fuel H. destruct t; [reflexivity|].
    apply bounded_getMax_loop. lia. }
  assert (Hmin : forall (I : Type) (t : tree I) fuel,
             (size t < fuel)%nat -> Bounded.getMin fuel t = Some (getMin t)).
  { intros I t fuel H. destruct t; [reflexivity|].
    apply bounded_getMin_loop. lia. }
  assert (Hclear : forall (I : Type) (t : tree I) fuel,
             (size t < fuel)%nat -> Bounded.clear fuel t = Some (clear t)).
  { intros I t fuel H. unfold Bounded.clear.
    rewrite bounded_destroy by exact H. reflexivity. }
  assert (Hprint : forall (I : Type) (t : tree I) order fuel,
             (size t < fuel)%nat ->
             Bounded.print fuel t order = Some (print t order)).
  { intros I t order fuel H. destruct order; cbn [Bounded.print print].
    - apply bounded_inorder, H.
    - apply bounded_preorder, H.
    - apply bounded_postorder, H. }
  split.
  - intros t key order fuel H. cbn [remove_mode].
    repeat split;
      auto using bounded_get, bounded_insert, bounded_removeByCopy,
        bounded_removeByFusion, bounded_removeMax, bounded_removeMin,
        bounded_findMax, bounded_findMin.
  - intros t key order fuel H.
    repeat split;
      auto using bounded_get, bounded_avl_insert, bounded_avl_remove,
        bounded_avl_removeMax, bounded_avl_removeMin, bounded_pullMax.
Qed.

Lemma operations_terminate_witness :
  let t : tree Z :=
    Node (Node (Node Leaf 1 1 Leaf) 2 2 Leaf) 3 3 (Node Leaf 4 1 Leaf) in
  (size t < 5)%nat /\
  Bounded.avl_remove 5 t 3 =
    Some (Some (Some 3, Node (Node Leaf 1 1 Leaf) 2 2 (Node Leaf 4 1 Leaf))) /\
  Bounded.pullMax 1 t = None /\
  Bounded.get 5 t 3 = Some (get t 3) /\
  Bounded.getMax 5 t = Some (getMax t) /\
  Bounded.getMin 5 t = Some (getMin t) /\
  Bounded.avl_insert 5 t 3 = Some (AVLTree.insert t 3) /\
  Bounded.avl_remove 5 t 3 = Some (AVLTree.remove t 3) /\
  Bounded.avl_removeMax 5 t = Some (AVLTree.removeMax t) /\
  Bounded.avl_removeMin 5 t = Some (AVLTree.removeMin t) /\
  Bounded.pullMax 5 t = Some (AVLTree.pullMax t) /\
  Bounded.clear 5 t = Some (clear t) /\
  Bounded.print 5 t PREORDER = Some (print t PREORDER).
Proof.
  cbv zeta. split; [simpl; lia|]. split; [reflexivity|].
  split; [reflexivity|].
  apply (proj2 (proj2 (proj2 operations_terminate))). simpl. lia.
Defined.

(** C10. In [balance], with the cached heights of the two subtrees right:
    a balance factor of 2 means that the left child exists, and when the
    balance factor of that child is negative, its right child exists; a
    balance factor of -2 means that the right child exists, and when the
    balance factor of that child is positive, its left child exists. So
    [balance] dereferences no null pointer: it returns a tree. *)
Theorem balance_no_null_dereference (l r : tree Z) (k h : Z) :
  cached_ok l -> cached_ok r ->
  (AVLTree.bFactor (Node l k (AVLTree.updateHeight l r) r) = Some 2 ->
   l <> Leaf /\
   (forall bl, AVLTree.bFactor l = Some bl -> bl < 0 ->
               right_of l <> Leaf /\ AVLTree.rotateLeft l <> None)) /\
  (AVLTree.bFactor (Node l k (AVLTree.updateHeight l r) r) = Some (-2) ->
   r <> Leaf /\
   (forall br, AVLTree.bFactor r = Some br -> br > 0 ->
               left_of r <> Leaf /\ AVLTree.rotateRight r <> None)) /\
  (exists n, AVLTree.balance (Node l k h r) = Some n /\
             inorder n = inorder (Node l k h r)).
Proof.
  intros Hl Hr.
  apply cached_hpos in Hl, Hr.
  pose proof (height_of_nonneg l Hl) as Pl.
  pose proof (height_of_nonneg r Hr) as Pr.
  split; [|split].
  - cbn [AVLTree.bFactor]. intros E. injection E as E.
    destruct l as [|ll lk lh lr]; [cbn in E; lia|].
    split; [discriminate|]. intros bl Eb Hneg.
    cbn [AVLTree.bFactor] in Eb. injection Eb as Eb.
    destruct Hl as (Hll & Hlr & _). apply height_of_nonneg in Hll.
    destruct lr as [|a b c d]; [cbn in Eb; lia|].
    split; discriminate.
  - cbn [AVLTree.bFactor]. intros E. injection E as E.
    destruct r as [|rl rk rh rr]; [cbn in E; lia|].
    split; [discriminate|]. intros br Eb Hpos.
    cbn [AVLTree.bFactor] in Eb. injection Eb as Eb.
    destruct Hr as (Hrl & Hrr & _). apply height_of_nonneg in Hrr.
    destruct rl as [|a b c d]; [cbn in Eb; lia|].
    split; discriminate.
  - destruct (balance_ok l k h r Hl Hr) as (n & E & Hi & _). eauto.
Qed.

Lemma balance_no_null_dereference_witness :
  let l : tree Z := Node Leaf 1 2 (Node Leaf 2 1 Leaf) in
  let r : tree Z := Leaf in
  AVLTree.bFactor (Node l 3 (AVLTree.updateHeight l r) r) = Some 2 /\
  AVLTree.bFactor l = Some (-1) /\
  AVLTree.balance (Node l 3 9 r) =
    Some (Node (Node Leaf 1 1 Leaf) 2 2 (Node Leaf 3 1 Leaf)) /\
  ((AVLTree.bFactor (Node l 3 (AVLTree.updateHeight l r) r) = Some 2 ->
    l <> Leaf /\
    (forall bl, AVLTree.bFactor l = Some bl -> bl < 0 ->
                right_of l <> Leaf /\ AVLTree.rotateLeft l <> None)) /\
   (AVLTree.bFactor (Node l 3 (AVLTree.updateHeight l r) r) = Some (-2) ->
    r <> Leaf /\
    (forall br, AVLTree.bFactor r = Some br -> br > 0 ->
                left_of r <> Leaf /\ AVLTree.rotateRight r <> None)) /\
   (exists n, AVLTree.balance (Node l 3 9 r) = Some n /\
              inorder n = inorder (Node l 3 9 r))).
Proof.
  cbv zeta. split; [reflexivity|]. split; [reflexivity|].
  split; [reflexivity|].
  apply (balance_no_null_dereference
           (Node Leaf 1 2 (Node Leaf 2 1 Leaf)) Leaf 3 9).
  - cbn [cached_ok height]. repeat split; lia.
  - exact Logic.I.
Defined.

End Claims.

(** * Further properties of the operations *)

(** ** Search *)
Section Search.
Context {I : Type} {NK : NodeKind I}.
Implicit Types (t l r s : tree I) (k key : T).
Import BSTree.

Lemma get_absent t key : ~ In key (inorder t) -> get t key = None.
Proof.
  induction t as [|l IHl k i r IHr]; intros H; [reflexivity|].
  simpl in H. rewrite in_app_iff in H. simpl in H. simpl.
  destruct (key <? k) eqn:E1; [apply IHl; tauto|].
  destruct (key >? k) eqn:E2; [apply IHr; tauto|].
  exfalso. apply H. right. left. lia.
Qed.

Lemma get_present t key : bst t -> In key (inorder t) -> get t key = Some key.
Proof.
  induction t as [|l IHl k i r IHr]; intros Hb Hin; [destruct Hin|].
  destruct (bst_key_side _ _ _ _ _ Hb Hin) as [[Hlt H]|[->|[Hlt H]]]; simpl.
  - replace (key <? k) with true by lia. apply IHl; [apply Hb|exact H].
  - rewrite Z.ltb_irrefl, Z.gtb_ltb, Z.ltb_irrefl. reflexivity.
  - replace (key <? k) with false by lia.
    replace (key >? k) with true by lia. apply IHr; [apply Hb|exact H].
Qed.

(** On a tree with the BST ordering, two trees with the same keys answer
    every search alike. *)
Lemma get_same_keys (t s : tree I) key :
  bst t -> bst s ->
  (In key (inorder s) <-> In key (inorder t)) -> get s key = get t key.
Proof.
  intros Ht Hs H. destruct (in_dec Z.eq_dec key (inorder t)) as [Hin|Hin].
  - rewrite !get_present; auto. apply H, Hin.
  - rewrite !get_absent; auto. intros Hc. apply Hin, H, Hc.
Qed.

Lemma getMax_none t : getMax t = None <-> t = Leaf.
Proof.
  split; [|intros ->; reflexivity].
  induction t as [|l _ k i r IH]; [reflexivity|].
  simpl. destruct r; [discriminate|]. intros H. apply IH in H. discriminate.
Qed.

Lemma getMin_none t : getMin t = None <-> t = Leaf.
Proof.
  split; [|intros ->; reflexivity].
  induction t as [|l IH k i r _]; [reflexivity|].
  simpl. destruct l; [discriminate|]. intros H. apply IH in H. discriminate.
Qed.

Lemma getMax_node l k i r :
  exists m pre, getMax (Node l k i r) = Some m /\
                inorder (Node l k i r) = pre ++ [m].
Proof.
  destruct (removeMax_node l k i r) as (b & t' & _ & E).
  exists b, (inorder t'). split; [|exact E].
  rewrite getMax_last, E, map_app. simpl. apply last_last.
Qed.

Lemma getMin_node l k i r :
  exists m post, getMin (Node l k i r) = Some m /\
                 inorder (Node l k i r) = m :: post.
Proof.
  destruct (removeMin_node l k i r) as (a & t' & _ & E).
  exists a, (inorder t'). split; [|exact E].
  rewrite getMin_head, E. reflexivity.
Qed.

Lemma in_inorder_nonempty t x : In x (inorder t) -> t <> Leaf.
Proof. intros H ->. destruct H. Qed.

End Search.

(** ** BSTree: what a caller observes *)
Section BSTObserved.
Context {I : Type} {NK : NodeKind I}.
Implicit Types (t l r s : tree I) (k key : T).
Import BSTree.

Lemma sorted_split_mem (xs ys : list Z) (key x : Z) :
  StronglySorted Z.lt (xs ++ key :: ys) ->
  (In x (xs ++ ys) <-> x <> key /\ In x (xs ++ key :: ys)).
Proof.
  intros Hs. apply sorted_middle in Hs. destruct Hs as (_ & _ & H1 & H2).
  rewrite Forall_forall in H1, H2. rewrite !in_app_iff. simpl. split.
  - intros [H|H]; [specialize (H1 _ H)|specialize (H2 _ H)];
      (split; [lia|tauto]).
  - intros (Hne & [H|[H|H]]); auto. congruence.
Qed.

(** X1. [get] and [operator[]] on a tree with the BST ordering find exactly
    the stored keys: the answer is the key itself when it is stored,
    [nullptr] when it is not, and never another key. *)
Theorem get_finds_exactly_stored_keys t key :
  bst t ->
  (get t key = Some key <-> In key (inorder t)) /\
  (get t key = None <-> ~ In key (inorder t)) /\
  (forall x, get t key = Some x -> x = key) /\
  TreeBase.operator_index t key = get t key.
Proof.
  intros Hb. unfold TreeBase.operator_index.
  destruct (in_dec Z.eq_dec key (inorder t)) as [Hin|Hin].
  - rewrite (get_present t key Hb Hin).
    repeat split; intros; try congruence; tauto.
  - rewrite (get_absent t key Hin).
    repeat split; intros; try congruence; tauto.
Qed.

(** X2. [getMin] and [getMax] return [nullptr] exactly on the empty tree;
    on a non-empty tree with the BST ordering they return stored keys that
    bound every stored key from below and from above. [operator bool] is the
    negation of [isEmpty]. *)
Theorem getMax_getMin_extremes t :
  bst t ->
  (isEmpty t = true -> getMax t = None /\ getMin t = None) /\
  (isEmpty t = false ->
   exists lo hi,
     getMin t = Some lo /\ getMax t = Some hi /\
     In lo (inorder t) /\ In hi (inorder t) /\
     forall x, In x (inorder t) -> lo <= x <= hi) /\
  TreeBase.operator_bool t = negb (isEmpty t).
Proof.
  intros Hb. destruct t as [|l k i r].
  - repeat split; auto. discriminate.
  - split; [discriminate|]. split; [|reflexivity]. intros _.
    destruct (getMin_node l k i r) as (lo & post & E1 & I1).
    destruct (getMax_node l k i r) as (hi & pre & E2 & I2).
    exists lo, hi. apply bst_sorted in Hb.
    split; [exact E1|]. split; [exact E2|].
    split; [rewrite I1; left; reflexivity|].
    split; [rewrite I2, in_app_iff; right; left; reflexivity|].
    intros x Hx. split.
    + rewrite I1 in Hb, Hx. apply sorted_cons_iff in Hb.
      destruct Hb as (_ & Hf). rewrite Forall_forall in Hf.
      destruct Hx as [->|Hx]; [lia|]. specialize (Hf _ Hx). lia.
    + rewrite I2 in Hb, Hx. apply sorted_middle in Hb.
      destruct Hb as (_ & _ & Hf & _). rewrite Forall_forall in Hf.
      apply in_app_or in Hx. destruct Hx as [Hx|[->|[]]]; [|lia].
      specialize (Hf _ Hx). lia.
Qed.

(** X3. [insert] on a tree with the BST ordering: it returns [true] exactly
    when the key was not stored; the new tree has the BST ordering, stores
    the old keys and the new one, and has one node more when the key was
    new and is the old tree otherwise. *)
Theorem bst_insert_spec t key :
  bst t ->
  exists b t',
    insert t key = (b, t') /\ bst t' /\
    (b = true <-> ~ In key (inorder t)) /\
    (forall x, In x (inorder t') <-> x = key \/ In x (inorder t)) /\
    (b = true -> size t' = S (size t)) /\
    (b = false -> t' = t).
Proof.
  intros Hb. pose proof (insert_bst t key Hb) as Hb'.
  destruct (in_dec Z.eq_dec key (inorder t)) as [Hin|Hin].
  - exists false, t. rewrite (insert_present t key Hb Hin) in *.
    repeat split; auto; try discriminate; try tauto.
    intros [->|H]; auto.
  - destruct (insert_absent t key Hin) as (t' & xs & ys & E & Ea & Eb & _).
    exists true, t'. rewrite E in *. split; [reflexivity|].
    split; [exact Hb'|]. split; [tauto|]. split; [|split].
    + intros x. rewrite Ea, Eb, !in_app_iff. simpl. intuition auto.
    + intros _. rewrite <- !size_inorder, Ea, Eb, !length_app. simpl. lia.
    + discriminate.
Qed.

(** X4. After [insert(key)], [get(key)] finds the key, and every other
    search answers as before. *)
Theorem bst_insert_then_get t key :
  bst t ->
  get (snd (insert t key)) key = Some key /\
  forall x, x <> key -> get (snd (insert t key)) x = get t x.
Proof.
  intros Hb. pose proof (insert_bst t key Hb) as Hb'.
  assert (Hm : forall x, In x (inorder (snd (insert t key))) <->
                         x = key \/ In x (inorder t)).
  { destruct (in_dec Z.eq_dec key (inorder t)) as [Hin|Hin].
    - rewrite (insert_present t key Hb Hin). simpl.
      intros x. split; auto. intros [->|H]; auto.
    - destruct (insert_absent t key Hin) as (t' & xs & ys & E & Ea & Eb & _).
      rewrite E. simpl. intros x.
      rewrite Ea, Eb, !in_app_iff. simpl. intuition auto. }
  split.
  - apply get_present; [exact Hb'|]. apply Hm. auto.
  - intros x Hx. apply get_same_keys; auto. rewrite Hm. intuition auto.
Qed.

(** X5. [remove], in either mode, on a tree with the BST ordering: it
    returns what [get] finds; the new tree has the BST ordering and stores
    the old keys but the removed one; it has one node less when the key was
    stored and is the old tree otherwise. *)
Theorem bst_remove_spec t key (mode : eRemove) :
  bst t ->
  exists t',
    remove_mode t key mode = (get t key, t') /\ bst t' /\
    (forall x, In x (inorder t') <-> x <> key /\ In x (inorder t)) /\
    (In key (inorder t) -> size t = S (size t')) /\
    (~ In key (inorder t) -> t' = t).
Proof.
  intros Hb. destruct (in_dec Z.eq_dec key (inorder t)) as [Hin|Hin].
  - assert (H : exists t' xs ys,
               remove_mode t key mode = (Some key, t') /\
               inorder t = xs ++ key :: ys /\ inorder t' = xs ++ ys).
    { destruct mode; cbn [remove_mode].
      - apply removeByCopy_present; assumption.
      - apply removeByFusion_present; assumption. }
    destruct H as (t' & xs & ys & E & Ea & Eb).
    exists t'. rewrite E, (get_present t key Hb Hin).
    apply bst_sorted in Hb as Hs. rewrite Ea in Hs.
    split; [reflexivity|]. split; [|split; [|split]].
    + apply bst_sorted. rewrite Eb. eapply sorted_remove_middle, Hs.
    + intros x. rewrite Ea, Eb. apply sorted_split_mem, Hs.
    + intros _. rewrite <- !size_inorder, Ea, Eb, !length_app. simpl. lia.
    + contradiction.
  - exists t. rewrite (get_absent t key Hin).
    split.
    { destruct mode; cbn [remove_mode].
      - apply removeByCopy_absent, Hin.
      - apply removeByFusion_absent, Hin. }
    split; [exact Hb|]. split; [|split; [contradiction|reflexivity]].
    intros x. split; [|tauto]. intros Hx. split; [|exact Hx].
    intros ->. contradiction.
Qed.

(** X6. After [remove(key)], in either mode, [get(key)] returns [nullptr],
    and every other search answers as before. *)
Theorem bst_remove_then_get t key (mode : eRemove) :
  bst t ->
  get (snd (remove_mode t key mode)) key = None /\
  forall x, x <> key -> get (snd (remove_mode t key mode)) x = get t x.
Proof.
  intros Hb.
  assert (H : bst (snd (remove_mode t key mode)) /\
              forall x, In x (inorder (snd (remove_mode t key mode))) <->
                        x <> key /\ In x (inorder t)).
  { destruct (in_dec Z.eq_dec key (inorder t)) as [Hin|Hin].
    - assert (H : exists t' xs ys,
                 remove_mode t key mode = (Some key, t') /\
                 inorder t = xs ++ key :: ys /\ inorder t' = xs ++ ys).
      { destruct mode; cbn [remove_mode].
        - apply removeByCopy_present; assumption.
        - apply removeByFusion_present; assumption. }
      destruct H as (t' & xs & ys & E & Ea & Eb). rewrite E. cbn [snd].
      apply bst_sorted in Hb as Hs. rewrite Ea in Hs. split.
      + apply bst_sorted. rewrite Eb. eapply sorted_remove_middle, Hs.
      + intros x. rewrite Ea, Eb. apply sorted_split_mem, Hs.
    - assert (E : remove_mode t key mode = (None, t)).
      { destruct mode; cbn [remove_mode].
        - apply removeByCopy_absent, Hin.
        - apply removeByFusion_absent, Hin. }
      rewrite E. cbn [snd]. split; [exact Hb|].
      intros x. split; [|tauto]. intros Hx. split; [|exact Hx].
      intros ->. contradiction. }
  destruct H as (Hb' & Hm). split.
  - apply get_absent. rewrite Hm. tauto.
  - intros x Hx. apply get_same_keys; auto. rewrite Hm. tauto.
Qed.

End BSTObserved.

(** The BSTree of the README: [bst << 'f' << 'm' << 'e' << 'a'], the
    characters as their codes. *)
Lemma readme_bst_ordered :
  bst (Node (Node (Node Leaf 97 tt Leaf) 101 tt Leaf) 102 tt
            (Node Leaf 109 tt Leaf)).
Proof. cbn [bst BSTree.inorder app]. repeat split; repeat constructor; lia. Qed.

Lemma get_finds_exactly_stored_keys_witness :
  let t : tree unit :=
    Node (Node (Node Leaf 97 tt Leaf) 101 tt Leaf) 102 tt
         (Node Leaf 109 tt Leaf) in
  BSTree.insert_all Leaf [102; 109; 101; 97] = t /\
  BSTree.get t 98 = None /\ BSTree.get t 101 = Some 101 /\
  ((BSTree.get t 98 = Some 98 <-> In 98 (BSTree.inorder t)) /\
   (BSTree.get t 98 = None <-> ~ In 98 (BSTree.inorder t)) /\
   (forall x, BSTree.get t 98 = Some x -> x = 98) /\
   TreeBase.operator_index t 98 = BSTree.get t 98).
Proof.
  cbv zeta. repeat (split; [reflexivity|]).
  apply (get_finds_exactly_stored_keys _ 98 readme_bst_ordered).
Defined.

Lemma getMax_getMin_extremes_witness :
  let t : tree unit :=
    Node (Node (Node Leaf 97 tt Leaf) 101 tt Leaf) 102 tt
         (Node Leaf 109 tt Leaf) in
  BSTree.getMin t = Some 97 /\ BSTree.getMax t = Some 109 /\
  ((BSTree.isEmpty t = true ->
    BSTree.getMax t = None /\ BSTree.getMin t = None) /\
   (BSTree.isEmpty t = false ->
    exists lo hi,
      BSTree.getMin t = Some lo /\ BSTree.getMax t = Some hi /\
      In lo (BSTree.inorder t) /\ In hi (BSTree.inorder t) /\
      forall x, In x (BSTree.inorder t) -> lo <= x <= hi) /\
   TreeBase.operator_bool t = negb (BSTree.isEmpty t)).
Proof.
  cbv zeta. repeat (split; [reflexivity|]).
  apply (getMax_getMin_extremes _ readme_bst_ordered).
Defined.

Lemma bst_insert_spec_witness :
  let t : tree unit :=
    Node (Node (Node Leaf 97 tt Leaf) 101 tt Leaf) 102 tt
         (Node Leaf 109 tt Leaf) in
  BSTree.insert t 97 = (false, t) /\
  BSTree.insert t 98 =
    (true, Node (Node (Node Leaf 97 tt (Node Leaf 98 tt Leaf)) 101 tt Leaf)
                102 tt (Node Leaf 109 tt Leaf)) /\
  exists b t',
    BSTree.insert t 98 = (b, t') /\ bst t' /\
    (b = true <-> ~ In 98 (BSTree.inorder t)) /\
    (forall x, In x (BSTree.inorder t') <-> x = 98 \/ In x (BSTree.inorder t)) /\
    (b = true -> size t' = S (size t)) /\
    (b = false -> t' = t).
Proof.
  cbv zeta. repeat (split; [reflexivity|]).
  apply (bst_insert_spec _ 98 readme_bst_ordered).
Defined.

Lemma bst_insert_then_get_witness :
  let t : tree unit :=
    Node (Node (Node Leaf 97 tt Leaf) 101 tt Leaf) 102 tt
         (Node Leaf 109 tt Leaf) in
  BSTree.get (snd (BSTree.insert t 98)) 98 = Some 98 /\
  forall x, x <> 98 ->
            BSTree.get (snd (BSTree.insert t 98)) x = BSTree.get t x.
Proof.
  apply (bst_insert_then_get _ 98 readme_bst_ordered).
Defined.

Lemma bst_remove_spec_witness :
  let t : tree unit :=
    Node (Node (Node Leaf 97 tt Leaf) 101 tt Leaf) 102 tt
         (Node Leaf 109 tt Leaf) in
  BSTree.remove_mode t 102 FUSION =
    (Some 102, Node (Node Leaf 97 tt Leaf) 101 tt (Node Leaf 109 tt Leaf)) /\
  BSTree.remove_mode t 102 COPY =
    (Some 102, Node (Node Leaf 97 tt Leaf) 101 tt (Node Leaf 109 tt Leaf)) /\
  exists t',
    BSTree.remove_mode t 102 FUSION = (BSTree.get t 102, t') /\ bst t' /\
    (forall x, In x (BSTree.inorder t') <->
               x <> 102 /\ In x (BSTree.inorder t)) /\
    (In 102 (BSTree.inorder t) -> size t = S (size t')) /\
    (~ In 102 (BSTree.inorder t) -> t' = t).
Proof.
  cbv zeta. repeat (split; [reflexivity|]).
  apply (bst_remove_spec _ 102 FUSION readme_bst_ordered).
Defined.

Lemma bst_remove_then_get_witness :
  let t : tree unit :=
    Node (Node (Node Leaf 97 tt Leaf) 101 tt Leaf) 102 tt
         (Node Leaf 109 tt Leaf) in
  BSTree.get (snd (BSTree.remove_mode t 102 COPY)) 102 = None /\
  forall x, x <> 102 ->
            BSTree.get (snd (BSTree.remove_mode t 102 COPY)) x =
            BSTree.get t x.
Proof.
  apply (bst_remove_then_get _ 102 COPY readme_bst_ordered).
Defined.

(** ** BSTree: extremes, traversals, [clear] *)
Section BSTExtremes.
Context {I : Type} {NK : NodeKind I}.
Implicit Types (t l r s : tree I) (k key : T).
Import BSTree.

Lemma last_some_app (p : list T) (b : T) :
  last (map Some (p ++ [b])) None = Some b.
Proof. rewrite map_app. simpl. apply last_last. Qed.

(** X7. [removeMax] on a non-empty tree returns the key that [getMax]
    returns and takes the last key out of the in-order sequence, one node
    less; with the BST ordering the tree keeps it, the returned key is
    greater than every key left and is no longer found. *)
Theorem bst_removeMax_spec t :
  isEmpty t = false ->
  exists b t',
    removeMax t = (Some b, t') /\ getMax t = Some b /\
    inorder t = inorder t' ++ [b] /\ size t = S (size t') /\
    (bst t ->
     bst t' /\ get t' b = None /\ Forall (fun x => x < b) (inorder t')).
Proof.
  destruct t as [|l k i r]; [discriminate|]. intros _.
  destruct (removeMax_node l k i r) as (b & t' & E & Hi).
  exists b, t'. split; [exact E|]. split; [|split; [exact Hi|split]].
  - rewrite getMax_last, Hi. apply last_some_app.
  - rewrite <- !size_inorder, Hi, length_app. simpl. lia.
  - intros Hb. apply bst_sorted in Hb. rewrite Hi in Hb.
    apply sorted_middle in Hb. destruct Hb as (H1 & _ & H2 & _).
    split; [apply bst_sorted, H1|]. split; [|exact H2].
    apply get_absent. intros Hin. rewrite Forall_forall in H2.
    specialize (H2 _ Hin). lia.
Qed.

(** X8. [removeMin] on a non-empty tree returns the key that [getMin]
    returns and takes the first key out of the in-order sequence, one node
    less; with the BST ordering the tree keeps it, the returned key is less
    than every key left and is no longer found. *)
Theorem bst_removeMin_spec t :
  isEmpty t = false ->
  exists a t',
    removeMin t = (Some a, t') /\ getMin t = Some a /\
    inorder t = a :: inorder t' /\ size t = S (size t') /\
    (bst t ->
     bst t' /\ get t' a = None /\ Forall (fun x => a < x) (inorder t')).
Proof.
  destruct t as [|l k i r]; [discriminate|]. intros _.
  destruct (removeMin_node l k i r) as (a & t' & E & Hi).
  exists a, t'. split; [exact E|]. split; [|split; [exact Hi|split]].
  - rewrite getMin_head, Hi. reflexivity.
  - rewrite <- !size_inorder, Hi. reflexivity.
  - intros Hb. apply bst_sorted in Hb. rewrite Hi in Hb.
    apply sorted_cons_iff in Hb. destruct Hb as (H1 & H2).
    split; [apply bst_sorted, H1|]. split; [|exact H2].
    apply get_absent. intros Hin. rewrite Forall_forall in H2.
    specialize (H2 _ Hin). lia.
Qed.

Lemma preorder_perm t : Permutation (preorder t) (inorder t).
Proof.
  induction t as [|l IHl k i r IHr]; [constructor|].
  simpl. rewrite IHl, IHr. apply Permutation_middle.
Qed.

Lemma postorder_perm t : Permutation (postorder t) (inorder t).
Proof.
  induction t as [|l IHl k i r IHr]; [constructor|].
  simpl. rewrite IHl, IHr. apply Permutation_app_head.
  symmetry. apply Permutation_cons_append.
Qed.

Lemma destroy_postorder t : destroy t = postorder t.
Proof.
  induction t as [|l IHl k i r IHr]; [reflexivity|].
  simpl. rewrite IHl, IHr. reflexivity.
Qed.

(** X9. [clear] deletes the nodes in post-order, every stored key exactly
    once, and leaves the empty tree: [isEmpty] holds, no key is found, and
    a second [clear] deletes nothing. *)
Theorem clear_spec t :
  fst (clear t) = print t POSTORDER /\
  Permutation (fst (clear t)) (inorder t) /\
  length (fst (clear t)) = size t /\
  isEmpty (snd (clear t)) = true /\
  (forall key, get (snd (clear t)) key = None) /\
  clear (snd (clear t)) = ([], Leaf).
Proof.
  unfold clear. cbn [fst snd print]. rewrite destroy_postorder.
  split; [reflexivity|]. split; [apply postorder_perm|].
  split; [|repeat split].
  rewrite (Permutation_length (postorder_perm t)). apply size_inorder.
Qed.

(** X10. The three orders of [print] write the same keys, as many as the
    tree has nodes; pre-order starts and post-order ends with the key of
    the root; the in-order output is strictly ascending exactly when the
    tree has the BST ordering. *)
Theorem traversals_same_keys t :
  Permutation (print t PREORDER) (print t INORDER) /\
  Permutation (print t POSTORDER) (print t INORDER) /\
  length (print t INORDER) = size t /\
  length (print t PREORDER) = size t /\
  length (print t POSTORDER) = size t /\
  (forall l k i r, t = Node l k i r ->
     hd_error (print t PREORDER) = Some k /\
     last (map Some (print t POSTORDER)) None = Some k) /\
  (bst t <-> StronglySorted Z.lt (print t INORDER)).
Proof.
  cbn [print].
  split; [apply preorder_perm|]. split; [apply postorder_perm|].
  split; [apply size_inorder|].
  split; [rewrite (Permutation_length (preorder_perm t)); apply size_inorder|].
  split; [rewrite (Permutation_length (postorder_perm t)); apply size_inorder|].
  split; [|apply bst_sorted].
  intros l k i r ->. split; [reflexivity|].
  cbn [postorder]. rewrite app_assoc. apply last_some_app.
Qed.

Lemma set_findMax_read t : set_findMax t (findMax t) = t.
Proof.
  induction t as [|l _ k i r IH]; [reflexivity|].
  destruct r as [|rl rk ri rr]; [reflexivity|].
  rewrite findMax_step, set_findMax_step, IH. reflexivity.
Qed.

Lemma set_findMin_read t : set_findMin t (findMin t) = t.
Proof.
  induction t as [|l IH k i r _]; [reflexivity|].
  destruct l as [|ll lk li lr]; [reflexivity|].
  rewrite findMin_step, set_findMin_step, IH. reflexivity.
Qed.

(** X11. On a non-null node, [findMax] refers to the node of the key that
    [getMax] returns, which has no right child, and [findMin] to the node
    of the key that [getMin] returns, which has no left child. An
    assignment through the reference replaces that node and what hangs
    below it and nothing else; assigning what was read changes nothing. *)
Theorem findMax_findMin_slot l k i r :
  let t := Node l k i r in
  (exists pre ml mk mi,
     findMax t = Node ml mk mi Leaf /\ getMax t = Some mk /\
     inorder t = pre ++ inorder ml ++ [mk] /\
     (forall s, inorder (set_findMax t s) = pre ++ inorder s) /\
     set_findMax t (findMax t) = t) /\
  (exists post mr mk mi,
     findMin t = Node Leaf mk mi mr /\ getMin t = Some mk /\
     inorder t = mk :: inorder mr ++ post /\
     (forall s, inorder (set_findMin t s) = inorder s ++ post) /\
     set_findMin t (findMin t) = t).
Proof.
  cbv zeta. split.
  - destruct (findMax_lens l k i r) as (pre & ml & mk & mi & E1 & E2 & E3).
    exists pre, ml, mk, mi. split; [exact E1|]. split; [|split; [exact E2|]].
    + rewrite getMax_last, E2, app_assoc. apply last_some_app.
    + split; [exact E3|apply set_findMax_read].
  - destruct (findMin_lens l k i r) as (post & mr & mk & mi & E1 & E2 & E3).
    exists post, mr, mk, mi. split; [exact E1|]. split; [|split; [exact E2|]].
    + rewrite getMin_head, E2. reflexivity.
    + split; [exact E3|apply set_findMin_read].
Qed.

End BSTExtremes.

Lemma bst_removeMax_spec_witness :
  let t : tree unit :=
    Node (Node (Node Leaf 97 tt Leaf) 101 tt Leaf) 102 tt
         (Node Leaf 109 tt Leaf) in
  BSTree.removeMax t =
    (Some 109, Node (Node (Node Leaf 97 tt Leaf) 101 tt Leaf) 102 tt Leaf) /\
  exists b t',
    BSTree.removeMax t = (Some b, t') /\ BSTree.getMax t = Some b /\
    BSTree.inorder t = BSTree.inorder t' ++ [b] /\ size t = S (size t') /\
    (bst t ->
     bst t' /\ BSTree.get t' b = None /\
     Forall (fun x => x < b) (BSTree.inorder t')).
Proof.
  cbv zeta. split; [reflexivity|].
  apply (@bst_removeMax_spec unit
           (Node (Node (Node Leaf 97 tt Leaf) 101 tt Leaf) 102 tt
                 (Node Leaf 109 tt Leaf))).
  reflexivity.
Defined.

Lemma bst_removeMin_spec_witness :
  let t : tree unit :=
    Node (Node (Node Leaf 97 tt Leaf) 101 tt Leaf) 102 tt
         (Node Leaf 109 tt Leaf) in
  BSTree.removeMin t =
    (Some 97, Node (Node Leaf 101 tt Leaf) 102 tt (Node Leaf 109 tt Leaf)) /\
  BSTree.get (snd (BSTree.removeMin t)) 98 = None /\
  BSTree.getMax (snd (BSTree.removeMin t)) = Some 109 /\
  exists a t',
    BSTree.removeMin t = (Some a, t') /\ BSTree.getMin t = Some a /\
    BSTree.inorder t = a :: BSTree.inorder t' /\ size t = S (size t') /\
    (bst t ->
     bst t' /\ BSTree.get t' a = None /\
     Forall (fun x => a < x) (BSTree.inorder t')).
Proof.
  cbv zeta. repeat (split; [reflexivity|]).
  apply (@bst_removeMin_spec unit
           (Node (Node (Node Leaf 97 tt Leaf) 101 tt Leaf) 102 tt
                 (Node Leaf 109 tt Leaf))).
  reflexivity.
Defined.

(** ** AVLTree: rotations and [balance], seen from outside *)
Section AVLObserved.
Import BSTree AVLTree.
Implicit Types (t l r n : tree Z) (k key h : Z).

(** X12. [insert] of AVLTree on a tree with the AVL invariant returns a
    tree with the AVL invariant whose height is the old one or one more; a
    refused key leaves the tree as it is. *)
Theorem avl_insert_keeps_invariant t key :
  avl_inv t ->
  exists b t',
    insert t key = Some (b, t') /\ avl_inv t' /\
    height t <= height t' <= height t + 1 /\
    (b = false -> t' = t).
Proof.
  intros Ha. destruct (insert_avl t key Ha) as (b & t' & E & H1 & H2 & H3).
  exists b, t'. repeat split; auto; lia.
Qed.

(** X13. [remove] of AVLTree on a tree with the AVL invariant returns a
    tree with the AVL invariant whose height is the old one or one less; a
    key that is not found leaves the tree as it is. *)
Theorem avl_remove_keeps_invariant t key :
  avl_inv t ->
  exists res t',
    remove t key = Some (res, t') /\ avl_inv t' /\
    height t - 1 <= height t' <= height t /\
    (res = None -> t' = t).
Proof.
  intros Ha. destruct (remove_avl t key Ha) as (res & t' & E & H1 & H2 & H3).
  exists res, t'. repeat split; auto; lia.
Qed.

(** X14. [balance] on a node whose two subtrees have the AVL invariant and
    heights that differ by at most two (what one insertion or removal below
    can leave): the result has the AVL invariant and the same in-order
    sequence, hence the BST ordering if the node had it; its height is the
    greater of the two heights or one more. *)
Theorem balance_restores_invariant l k h r :
  avl_inv l -> avl_inv r -> -2 <= height l - height r <= 2 ->
  exists n,
    balance (Node l k h r) = Some n /\ avl_inv n /\
    inorder n = inorder (Node l k h r) /\
    (bst (Node l k h r) -> bst n) /\
    Z.max (height l) (height r) <= height n <=
      1 + Z.max (height l) (height r).
Proof.
  intros Hl Hr Hd.
  destruct (balance_avl l k h r Hl Hr Hd) as (n & E & Hn & Hi & Hh & _).
  exists n. split; [exact E|]. split; [exact Hn|]. split; [exact Hi|].
  split; [|lia].
  intros Hb. apply bst_sorted. rewrite Hi. apply bst_sorted, Hb.
Qed.

(** X15. [balance] leaves a node that has the AVL invariant as it is. *)
Theorem balance_identity_on_balanced l k h r :
  avl_inv (Node l k h r) -> balance (Node l k h r) = Some (Node l k h r).
Proof.
  intros (Hl & Hr & Hh & Hb). unfold balance, bFactor.
  rewrite updateHeight_max.
  rewrite (avl_inv_height_of l Hl), (avl_inv_height_of r Hr), <- Hh.
  replace (height l - height r =? 2) with false by lia.
  replace (height l - height r =? -2) with false by lia.
  reflexivity.
Qed.

(** X16. On a node whose cached heights are right, [rotateRight] undoes
    [rotateLeft] and [rotateLeft] undoes [rotateRight]; a rotation keeps
    the cached heights right. *)
Theorem rotations_inverse t :
  cached_ok t ->
  (forall n, rotateLeft t = Some n ->
             rotateRight n = Some t /\ cached_ok n) /\
  (forall n, rotateRight t = Some n ->
             rotateLeft n = Some t /\ cached_ok n).
Proof.
  intros Hc. split.
  - destruct t as [|l k h [|rl rk rh rr]]; try discriminate.
    intros n E. cbn [rotateLeft] in E. injection E as <-.
    destruct Hc as (Hl & (Hrl & Hrr & Hrh) & Hh).
    pose proof (cached_height_of l Hl). pose proof (cached_height_of rl Hrl).
    pose proof (cached_height_of rr Hrr).
    cbn [height] in Hh. split.
    + cbn [rotateRight]. rewrite !updateHeight_max. cbn [height_of].
      repeat f_equal; lia.
    + cbn [cached_ok height]. rewrite !updateHeight_max. cbn [height_of].
      repeat split; auto; lia.
  - destruct t as [|[|ll lk lh lr] k h r]; try discriminate.
    intros n E. cbn [rotateRight] in E. injection E as <-.
    destruct Hc as ((Hll & Hlr & Hlh) & Hr & Hh).
    pose proof (cached_height_of ll Hll). pose proof (cached_height_of lr Hlr).
    pose proof (cached_height_of r Hr).
    cbn [height] in Hh. split.
    + cbn [rotateLeft]. rewrite !updateHeight_max. cbn [height_of].
      repeat f_equal; lia.
    + cbn [cached_ok height]. rewrite !updateHeight_max. cbn [height_of].
      repeat split; auto; lia.
Qed.

(** X17. [rotateLeft] dereferences a null pointer exactly when the node or
    its right child is null, [rotateRight] exactly when the node or its
    left child is null. A rotation keeps the in-order sequence and the
    number of nodes, and the result has the BST ordering exactly when the
    node had it. *)
Theorem rotation_spec t :
  (rotateLeft t = None <-> right_of t = Leaf) /\
  (rotateRight t = None <-> left_of t = Leaf) /\
  (forall n, rotateLeft t = Some n \/ rotateRight t = Some n ->
             inorder n = inorder t /\ size n = size t /\ (bst n <-> bst t)).
Proof.
  split; [|split].
  - destruct t as [|l k h [|rl rk rh rr]]; cbn; split;
      try reflexivity; discriminate.
  - destruct t as [|[|ll lk lh lr] k h r]; cbn; split;
      try reflexivity; discriminate.
  - intros n Hn.
    assert (Hi : inorder n = inorder t).
    { destruct Hn as [E|E].
      - destruct t as [|l k h [|rl rk rh rr]]; try discriminate.
        cbn [rotateLeft] in E. injection E as <-. list_assoc.
      - destruct t as [|[|ll lk lh lr] k h r]; try discriminate.
        cbn [rotateRight] in E. injection E as <-. list_assoc. }
    split; [exact Hi|]. split.
    + rewrite <- !size_inorder, Hi. reflexivity.
    + rewrite !bst_sorted, Hi. reflexivity.
Qed.

End AVLObserved.

(** ** AVLTree: the height is logarithmic in the number of nodes *)
Section AVLHeight.
Import BSTree AVLTree.
Implicit Types (t l r n : tree Z) (k key h : Z).

Lemma avl_pow_height t :
  avl_inv t ->
  2 ^ height t <= (Z.of_nat (size t) + 1) * (Z.of_nat (size t) + 1).
Proof.
  induction t as [|l IHl k h r IHr]; [cbn; lia|].
  intros (Hl & Hr & _ & Hb). specialize (IHl Hl). specialize (IHr Hr).
  pose proof (height_nonneg l) as Nl. pose proof (height_nonneg r) as Nr.
  cbn [height size]. rewrite Nat2Z.inj_succ, Nat2Z.inj_add.
  set (a := Z.of_nat (size l) + 1) in *.
  set (b := Z.of_nat (size r) + 1) in *.
  assert (Ha : 1 <= a) by (subst a; lia).
  assert (Hb' : 1 <= b) by (subst b; lia).
  replace (Z.succ (Z.of_nat (size l) + Z.of_nat (size r)) + 1)
    with (a + b) by (subst a b; lia).
  replace (1 + Z.max (height l) (height r))
    with (Z.succ (Z.max (height l) (height r))) by lia.
  rewrite Z.pow_succ_r by lia.
  assert (Hc : height l = height r \/ height l = Z.succ (height r) \/
               height r = Z.succ (height l)) by lia.
  destruct Hc as [E|[E|E]].
  - rewrite E, Z.max_id in *. nia.
  - rewrite E in *. rewrite Z.max_l by lia.
    rewrite Z.pow_succ_r in * by lia.
    destruct (Z_le_gt_dec a b); nia.
  - rewrite E in *. rewrite Z.max_r by lia.
    rewrite Z.pow_succ_r in * by lia.
    destruct (Z_le_gt_dec a b); nia.
Qed.

Lemma avl_log_height t :
  avl_inv t -> height t <= 2 * Z.log2_up (Z.of_nat (size t) + 1).
Proof.
  intros Ha. pose proof (avl_pow_height t Ha) as H.
  set (s := Z.of_nat (size t) + 1) in *.
  assert (Hs : 1 <= s) by (subst s; lia).
  assert (Hu : s <= 2 ^ Z.log2_up s).
  { destruct (Z.eq_dec s 1) as [->|Hne]; [cbn; lia|].
    apply Z.log2_up_spec. lia. }
  pose proof (Z.log2_up_nonneg s) as Hn.
  assert (Hp : 2 ^ height t <= 2 ^ (2 * Z.log2_up s)).
  { replace (2 * Z.log2_up s) with (Z.log2_up s + Z.log2_up s) by lia.
    rewrite Z.pow_add_r by lia.
    assert (0 < 2 ^ Z.log2_up s) by (apply Z.pow_pos_nonneg; lia).
    nia. }
  apply Z.pow_le_mono_r_iff in Hp; lia.
Qed.

(** X18. A tree with the AVL invariant and [n] nodes has a height [h] with
    [2^h <= (n+1)^2], so [h] is at most twice the logarithm of [n+1]
    rounded up. *)
Theorem avl_height_logarithmic t :
  avl_inv t ->
  2 ^ height t <= (Z.of_nat (size t) + 1) ^ 2 /\
  height t <= 2 * Z.log2_up (Z.of_nat (size t) + 1).
Proof.
  intros Ha. split.
  - rewrite Z.pow_2_r. apply avl_pow_height, Ha.
  - apply avl_log_height, Ha.
Qed.

Lemma avl_height_logarithmic_witness :
  let t : tree Z :=
    Node (Node (Node Leaf 1 1 Leaf) 2 2 Leaf) 3 3 (Node Leaf 4 1 Leaf) in
  height t = 3 /\ size t = 4%nat /\
  2 ^ height t <= (Z.of_nat (size t) + 1) ^ 2 /\
  height t <= 2 * Z.log2_up (Z.of_nat (size t) + 1).
Proof.
  cbv zeta. split; [reflexivity|]. split; [reflexivity|].
  apply (avl_height_logarithmic
           (Node (Node (Node Leaf 1 1 Leaf) 2 2 Leaf) 3 3 (Node Leaf 4 1 Leaf))).
  cbn [avl_inv height]. repeat split; lia.
Defined.

Lemma avl_insert_all_inv (keys : list T) t :
  avl_inv t -> bst t ->
  exists t', insert_all t keys = Some t' /\ avl_inv t' /\ bst t' /\
             forall x, In x (inorder t') <-> In x keys \/ In x (inorder t).
Proof.
  revert t. induction keys as [|a keys IH]; intros t Ha Hb.
  - exists t. cbn. repeat split; auto. tauto.
  - destruct (insert_avl t a Ha) as (b & t1 & E & Ha1 & _).
    destruct (avl_insert_inv t a (avl_inv_hpos t Ha) Hb)
      as (b' & t1' & E' & _ & Hb1 & Hm & _).
    rewrite E in E'. injection E' as <- <-.
    destruct (IH t1 Ha1 Hb1) as (t' & E2 & Ha2 & Hb2 & Hm2).
    exists t'. cbn [insert_all]. rewrite E. split; [exact E2|].
    split; [exact Ha2|]. split; [exact Hb2|].
    intros x. rewrite Hm2, Hm. simpl. intuition auto.
Qed.

(** X19. Chained insertion into an empty AVLTree, of any keys, repeated or
    not: every insertion returns, and the tree built has the AVL invariant
    and the BST ordering, stores exactly the keys inserted, and has a
    height of at most twice the logarithm of its number of nodes plus one,
    rounded up. *)
Theorem avl_insert_all_builds_avl (keys : list T) :
  exists t,
    insert_all Leaf keys = Some t /\ avl_inv t /\ bst t /\
    (forall x, In x (inorder t) <-> In x keys) /\
    height t <= 2 * Z.log2_up (Z.of_nat (size t) + 1).
Proof.
  destruct (avl_insert_all_inv keys Leaf Logic.I Logic.I)
    as (t & E & Ha & Hb & Hm).
  exists t. split; [exact E|]. split; [exact Ha|]. split; [exact Hb|].
  split.
  - intros x. rewrite Hm. cbn. tauto.
  - apply avl_log_height, Ha.
Qed.

End AVLHeight.

(** The AVLTree built by inserting 3, 2, 4, 1. *)
Lemma avl_3241_inv :
  avl_inv (Node (Node (Node Leaf 1 1 Leaf) 2 2 Leaf) 3 3 (Node Leaf 4 1 Leaf)).
Proof. cbn [avl_inv height]. repeat split; lia. Qed.

Lemma avl_3241_bst :
  bst (Node (Node (Node Leaf 1 1 Leaf) 2 2 Leaf) 3 3 (Node Leaf 4 1 Leaf)).
Proof. cbn [bst BSTree.inorder app]. repeat split; repeat constructor; lia. Qed.

Lemma avl_insert_keeps_invariant_witness :
  let t : tree Z :=
    Node (Node (Node Leaf 1 1 Leaf) 2 2 Leaf) 3 3 (Node Leaf 4 1 Leaf) in
  AVLTree.insert t 0 =
    Some (true, Node (Node (Node Leaf 0 1 Leaf) 1 2 (Node Leaf 2 1 Leaf)) 3 3
                     (Node Leaf 4 1 Leaf)) /\
  exists b t',
    AVLTree.insert t 0 = Some (b, t') /\ avl_inv t' /\
    height t <= height t' <= height t + 1 /\
    (b = false -> t' = t).
Proof.
  cbv zeta. split; [reflexivity|].
  apply (avl_insert_keeps_invariant _ 0 avl_3241_inv).
Defined.

Lemma avl_remove_keeps_invariant_witness :
  let t : tree Z :=
    Node (Node (Node Leaf 1 1 Leaf) 2 2 Leaf) 3 3 (Node Leaf 4 1 Leaf) in
  AVLTree.remove t 4 =
    Some (Some 4, Node (Node Leaf 1 1 Leaf) 2 2 (Node Leaf 3 1 Leaf)) /\
  exists res t',
    AVLTree.remove t 4 = Some (res, t') /\ avl_inv t' /\
    height t - 1 <= height t' <= height t /\
    (res = None -> t' = t).
Proof.
  cbv zeta. split; [reflexivity|].
  apply (avl_remove_keeps_invariant _ 4 avl_3241_inv).
Defined.

Lemma balance_restores_invariant_witness :
  let l : tree Z := Node (Node Leaf 1 1 Leaf) 2 2 Leaf in
  let r : tree Z := Leaf in
  AVLTree.balance (Node l 3 3 r) =
    Some (Node (Node Leaf 1 1 Leaf) 2 2 (Node Leaf 3 1 Leaf)) /\
  exists n,
    AVLTree.balance (Node l 3 3 r) = Some n /\ avl_inv n /\
    BSTree.inorder n = BSTree.inorder (Node l 3 3 r) /\
    (bst (Node l 3 3 r) -> bst n) /\
    Z.max (height l) (height r) <= height n <=
      1 + Z.max (height l) (height r).
Proof.
  cbv zeta. split; [reflexivity|].
  apply (balance_restores_invariant
           (Node (Node Leaf 1 1 Leaf) 2 2 Leaf) 3 3 Leaf).
  - cbn [avl_inv height]. repeat split; lia.
  - exact Logic.I.
  - cbn [height]. lia.
Defined.

Lemma balance_identity_on_balanced_witness :
  AVLTree.balance
    (Node (Node (Node Leaf 1 1 Leaf) 2 2 Leaf) 3 3 (Node Leaf 4 1 Leaf)) =
  Some (Node (Node (Node Leaf 1 1 Leaf) 2 2 Leaf) 3 3 (Node Leaf 4 1 Leaf)).
Proof.
  apply (balance_identity_on_balanced _ _ _ _ avl_3241_inv).
Defined.

Lemma rotations_inverse_witness :
  let t : tree Z :=
    Node (Node (Node Leaf 1 1 Leaf) 2 2 Leaf) 3 3 (Node Leaf 4 1 Leaf) in
  AVLTree.rotateRight t =
    Some (Node (Node Leaf 1 1 Leaf) 2 3
               (Node Leaf 3 2 (Node Leaf 4 1 Leaf))) /\
  AVLTree.rotateLeft
    (Node (Node Leaf 1 1 Leaf) 2 3 (Node Leaf 3 2 (Node Leaf 4 1 Leaf))) =
    Some t /\
  ((forall n, AVLTree.rotateLeft t = Some n ->
              AVLTree.rotateRight n = Some t /\ cached_ok n) /\
   (forall n, AVLTree.rotateRight t = Some n ->
              AVLTree.rotateLeft n = Some t /\ cached_ok n)).
Proof.
  cbv zeta. split; [reflexivity|]. split; [reflexivity|].
  apply (rotations_inverse
           (Node (Node (Node Leaf 1 1 Leaf) 2 2 Leaf) 3 3 (Node Leaf 4 1 Leaf))).
  cbn [cached_ok height]. repeat split; lia.
Defined.

(** ** AVLTree: what a caller observes *)
Section AVLCaller.
Import BSTree AVLTree.
Implicit Types (t l r n : tree Z) (k key h : Z).

(** X20. [insert] of AVLTree on a tree with the BST ordering and positive
    cached heights (balanced or not): it returns [true] exactly when the
    key was not stored; the new tree has the BST ordering and positive
    cached heights and stores the old keys and the new one, on one node
    more when the key was new; [get] finds the key afterwards and answers
    every other search as before. *)
Theorem avl_insert_spec t key :
  bst t -> hpos t ->
  exists b t',
    insert t key = Some (b, t') /\ bst t' /\ hpos t' /\
    (b = true <-> ~ In key (inorder t)) /\
    (forall x, In x (inorder t') <-> x = key \/ In x (inorder t)) /\
    (b = true -> size t' = S (size t)) /\
    get t' key = Some key /\
    (forall x, x <> key -> get t' x = get t x).
Proof.
  intros Hb Hp.
  assert (H : exists b t',
             insert t key = Some (b, t') /\ bst t' /\ hpos t' /\
             (b = true <-> ~ In key (inorder t)) /\
             (forall x, In x (inorder t') <-> x = key \/ In x (inorder t)) /\
             (b = true -> size t' = S (size t))).
  { destruct (in_dec Z.eq_dec key (inorder t)) as [Hin|Hin].
    - exists false, t. rewrite (avl_insert_present t key Hb Hin).
      repeat split; auto; try discriminate; try tauto.
      intros [->|H]; auto.
    - destruct (avl_insert_absent t key Hp Hin)
        as (t' & xs & ys & E & Ea & Eb & Hp' & Hf).
      exists true, t'. split; [exact E|]. split; [|split; [exact Hp'|]].
      + apply bst_sorted. rewrite Eb. apply bst_sorted in Hb as Hs.
        rewrite Ea in Hs.
        apply sorted_insert_middle; [assumption|apply Hf, Hb|apply Hf, Hb].
      + split; [tauto|]. split.
        * intros x. rewrite Ea, Eb, !in_app_iff. simpl. intuition auto.
        * intros _. rewrite <- !size_inorder, Ea, Eb, !length_app.
          simpl. lia. }
  destruct H as (b & t' & E & Hb' & Hp' & Hf & Hm & Hs).
  exists b, t'. repeat (split; [assumption|]). split.
  - apply get_present; [exact Hb'|]. apply Hm. auto.
  - intros x Hx. apply get_same_keys; auto. rewrite Hm. intuition auto.
Qed.

(** X21. [remove] of AVLTree on a tree with the BST ordering and positive
    cached heights (balanced or not): it returns what [get] finds; the new
    tree has the BST ordering and positive cached heights and stores the
    old keys but the removed one, on one node less when the key was
    stored; [get] no longer finds the key and answers every other search
    as before. *)
Theorem avl_remove_spec t key :
  bst t -> hpos t ->
  exists t',
    remove t key = Some (get t key, t') /\ bst t' /\ hpos t' /\
    (forall x, In x (inorder t') <-> x <> key /\ In x (inorder t)) /\
    (In key (inorder t) -> size t = S (size t')) /\
    (~ In key (inorder t) -> t' = t) /\
    get t' key = None /\
    (forall x, x <> key -> get t' x = get t x).
Proof.
  intros Hb Hp.
  assert (H : exists t',
             remove t key = Some (get t key, t') /\ bst t' /\ hpos t' /\
             (forall x, In x (inorder t') <-> x <> key /\ In x (inorder t)) /\
             (In key (inorder t) -> size t = S (size t')) /\
             (~ In key (inorder t) -> t' = t)).
  { destruct (in_dec Z.eq_dec key (inorder t)) as [Hin|Hin].
    - destruct (avl_remove_present t key Hp Hb Hin)
        as (t' & xs & ys & E & Ea & Eb & Hp').
      exists t'. rewrite E, (get_present t key Hb Hin).
      apply bst_sorted in Hb as Hs. rewrite Ea in Hs.
      split; [reflexivity|]. split; [|split; [exact Hp'|split; [|split]]].
      + apply bst_sorted. rewrite Eb. eapply sorted_remove_middle, Hs.
      + intros x. rewrite Ea, Eb. apply sorted_split_mem, Hs.
      + intros _. rewrite <- !size_inorder, Ea, Eb, !length_app. simpl. lia.
      + contradiction.
    - exists t. rewrite (get_absent t key Hin), (avl_remove_absent t key Hin).
      split; [reflexivity|]. split; [exact Hb|]. split; [exact Hp|].
      split; [|split; [contradiction|reflexivity]].
      intros x. split; [|tauto]. intros Hx. split; [|exact Hx].
      intros ->. contradiction. }
  destruct H as (t' & E & Hb' & Hp' & Hm & Hs & Hu).
  exists t'. repeat (split; [assumption|]). split.
  - apply get_absent. rewrite Hm. tauto.
  - intros x Hx. apply get_same_keys; auto. rewrite Hm. tauto.
Qed.

(** X22. [removeMax] of AVLTree on a non-empty tree with positive cached
    heights returns the key that [getMax] returns and takes the last key
    out of the in-order sequence; the cached heights stay positive, and
    with the BST ordering the tree keeps it and the key is no longer
    found. *)
Theorem avl_removeMax_spec t :
  hpos t -> isEmpty t = false ->
  exists b t',
    removeMax t = Some (Some b, t') /\ getMax t = Some b /\
    inorder t = inorder t' ++ [b] /\ size t = S (size t') /\ hpos t' /\
    (bst t -> bst t' /\ get t' b = None).
Proof.
  intros Hp He. destruct t as [|l k h r]; [discriminate|].
  destruct (avl_removeMax_node l k h r Hp) as (b & t' & E & Hi & Hp').
  exists b, t'. split; [exact E|]. split; [|split; [exact Hi|split; [|split]]].
  - rewrite getMax_last, Hi. apply last_some_app.
  - rewrite <- !size_inorder, Hi, length_app. simpl. lia.
  - exact Hp'.
  - intros Hb. apply bst_sorted in Hb. rewrite Hi in Hb.
    apply sorted_middle in Hb. destruct Hb as (H1 & _ & H2 & _).
    split; [apply bst_sorted, H1|].
    apply get_absent. intros Hin. rewrite Forall_forall in H2.
    specialize (H2 _ Hin). lia.
Qed.

(** X23. [removeMin] of AVLTree on a non-empty tree with positive cached
    heights returns the key that [getMin] returns and takes the first key
    out of the in-order sequence; the cached heights stay positive, and
    with the BST ordering the tree keeps it and the key is no longer
    found. *)
Theorem avl_removeMin_spec t :
  hpos t -> isEmpty t = false ->
  exists a t',
    removeMin t = Some (Some a, t') /\ getMin t = Some a /\
    inorder t = a :: inorder t' /\ size t = S (size t') /\ hpos t' /\
    (bst t -> bst t' /\ get t' a = None).
Proof.
  intros Hp He. destruct t as [|l k h r]; [discriminate|].
  destruct (avl_removeMin_node l k h r Hp) as (a & t' & E & Hi & Hp').
  exists a, t'. split; [exact E|]. split; [|split; [exact Hi|split; [|split]]].
  - rewrite getMin_head, Hi. reflexivity.
  - rewrite <- !size_inorder, Hi. reflexivity.
  - exact Hp'.
  - intros Hb. apply bst_sorted in Hb. rewrite Hi in Hb.
    apply sorted_cons_iff in Hb. destruct Hb as (H1 & H2).
    split; [apply bst_sorted, H1|].
    apply get_absent. intros Hin. rewrite Forall_forall in H2.
    specialize (H2 _ Hin). lia.
Qed.

(** X24. [pullMax] on a node with the AVL invariant detaches the node of
    the key that [getMax] returns: the tree left in the slot has the AVL
    invariant, the same in-order sequence without its last key, and a
    height that is the old one or one less. *)
Theorem pullMax_spec l k h r :
  avl_inv (Node l k h r) ->
  exists ml mk mh n,
    pullMax (Node l k h r) = Some (Node ml mk mh Leaf, n) /\
    getMax (Node l k h r) = Some mk /\
    inorder (Node l k h r) = inorder n ++ [mk] /\
    avl_inv n /\
    height (Node l k h r) - 1 <= height n <= height (Node l k h r).
Proof.
  intros Ha.
  destruct (pullMax_avl l k h r Ha) as (ml & mk & mh & n & E & Hn & Hh).
  destruct (pullMax_ok l k h r (avl_inv_hpos _ Ha))
    as (ml' & mk' & mh' & n' & E' & Hi & _).
  rewrite E in E'. injection E' as <- <- <- <-.
  exists ml, mk, mh, n. split; [exact E|]. split; [|split; [exact Hi|]].
  - rewrite getMax_last, Hi. apply last_some_app.
  - split; [exact Hn|]. lia.
Qed.

End AVLCaller.

Lemma avl_insert_spec_witness :
  let t : tree Z :=
    Node (Node (Node Leaf 1 1 Leaf) 2 2 Leaf) 3 3 (Node Leaf 4 1 Leaf) in
  exists b t',
    AVLTree.insert t 0 = Some (b, t') /\ bst t' /\ hpos t' /\
    (b = true <-> ~ In 0 (BSTree.inorder t)) /\
    (forall x, In x (BSTree.inorder t') <-> x = 0 \/ In x (BSTree.inorder t)) /\
    (b = true -> size t' = S (size t)) /\
    BSTree.get t' 0 = Some 0 /\
    (forall x, x <> 0 -> BSTree.get t' x = BSTree.get t x).
Proof.
  apply (avl_insert_spec _ 0 avl_3241_bst (avl_inv_hpos _ avl_3241_inv)).
Defined.

Lemma avl_remove_spec_witness :
  let t : tree Z :=
    Node (Node (Node Leaf 1 1 Leaf) 2 2 Leaf) 3 3 (Node Leaf 4 1 Leaf) in
  AVLTree.remove t 3 =
    Some (Some 3, Node (Node Leaf 1 1 Leaf) 2 2 (Node Leaf 4 1 Leaf)) /\
  exists t',
    AVLTree.remove t 3 = Some (BSTree.get t 3, t') /\ bst t' /\ hpos t' /\
    (forall x, In x (BSTree.inorder t') <->
               x <> 3 /\ In x (BSTree.inorder t)) /\
    (In 3 (BSTree.inorder t) -> size t = S (size t')) /\
    (~ In 3 (BSTree.inorder t) -> t' = t) /\
    BSTree.get t' 3 = None /\
    (forall x, x <> 3 -> BSTree.get t' x = BSTree.get t x).
Proof.
  cbv zeta. split; [reflexivity|].
  apply (avl_remove_spec _ 3 avl_3241_bst (avl_inv_hpos _ avl_3241_inv)).
Defined.

Lemma avl_removeMax_spec_witness :
  let t : tree Z :=
    Node (Node (Node Leaf 1 1 Leaf) 2 2 Leaf) 3 3 (Node Leaf 4 1 Leaf) in
  exists b t',
    AVLTree.removeMax t = Some (Some b, t') /\ BSTree.getMax t = Some b /\
    BSTree.inorder t = BSTree.inorder t' ++ [b] /\ size t = S (size t') /\
    hpos t' /\ (bst t -> bst t' /\ BSTree.get t' b = None).
Proof.
  apply (avl_removeMax_spec _ (avl_inv_hpos _ avl_3241_inv)). reflexivity.
Defined.

Lemma avl_removeMin_spec_witness :
  let t : tree Z :=
    Node (Node (Node Leaf 1 1 Leaf) 2 2 Leaf) 3 3 (Node Leaf 4 1 Leaf) in
  exists a t',
    AVLTree.removeMin t = Some (Some a, t') /\ BSTree.getMin t = Some a /\
    BSTree.inorder t = a :: BSTree.inorder t' /\ size t = S (size t') /\
    hpos t' /\ (bst t -> bst t' /\ BSTree.get t' a = None).
Proof.
  apply (avl_removeMin_spec _ (avl_inv_hpos _ avl_3241_inv)). reflexivity.
Defined.

Lemma pullMax_spec_witness :
  let t : tree Z :=
    Node (Node (Node Leaf 1 1 Leaf) 2 2 Leaf) 3 3 (Node Leaf 4 1 Leaf) in
  AVLTree.pullMax t =
    Some (Node Leaf 4 1 Leaf,
          Node (Node Leaf 1 1 Leaf) 2 2 (Node Leaf 3 1 Leaf)) /\
  exists ml mk mh n,
    AVLTree.pullMax t = Some (Node ml mk mh Leaf, n) /\
    BSTree.getMax t = Some mk /\
    BSTree.inorder t = BSTree.inorder n ++ [mk] /\
    avl_inv n /\ height t - 1 <= height n <= height t.
Proof.
  cbv zeta. split; [reflexivity|].
  apply (pullMax_spec _ _ _ _ avl_3241_inv).
Defined.

(** ** BSTree against AVLTree *)
Section BSTvsAVL.
Import BSTree.

Lemma sorted_same_elements (l1 l2 : list Z) :
  StronglySorted Z.lt l1 -> StronglySorted Z.lt l2 ->
  (forall x, In x l1 <-> In x l2) -> l1 = l2.
Proof.
  revert l2. induction l1 as [|a l1 IH]; intros [|b l2] H1 H2 Hm.
  - reflexivity.
  - exfalso. apply (Hm b). left. reflexivity.
  - exfalso. apply (Hm a). left. reflexivity.
  - apply sorted_cons_iff in H1, H2.
    destruct H1 as (S1 & F1), H2 as (S2 & F2).
    rewrite Forall_forall in F1, F2.
    assert (a = b).
    { destruct (proj1 (Hm a) (or_introl eq_refl)) as [E|Ha]; [auto|].
      destruct (proj2 (Hm b) (or_introl eq_refl)) as [E|Hb]; [auto|].
      specialize (F1 _ Hb). specialize (F2 _ Ha). lia. }
    subst b. f_equal. apply IH; auto.
    intros x. split; intros Hx.
    + destruct (proj1 (Hm x) (or_intror Hx)) as [E|H]; [|exact H].
      specialize (F1 _ Hx). lia.
    + destruct (proj2 (Hm x) (or_intror Hx)) as [E|H]; [|exact H].
      specialize (F2 _ Hx). lia.
Qed.

Lemma insert_mem {I : Type} {NK : NodeKind I} (t : tree I) (key x : T) :
  bst t ->
  (In x (inorder (snd (insert t key))) <-> x = key \/ In x (inorder t)).
Proof.
  intros Hb. destruct (in_dec Z.eq_dec key (inorder t)) as [Hin|Hin].
  - rewrite (insert_present t key Hb Hin). simpl.
    split; auto. intros [->|H]; auto.
  - destruct (insert_absent t key Hin) as (t' & xs & ys & E & Ea & Eb & _).
    rewrite E. simpl. rewrite Ea, Eb, !in_app_iff. simpl. intuition auto.
Qed.

Lemma insert_all_mem {I : Type} {NK : NodeKind I} (keys : list T) (t : tree I) :
  bst t ->
  bst (insert_all t keys) /\
  forall x, In x (inorder (insert_all t keys)) <->
            In x keys \/ In x (inorder t).
Proof.
  revert t. induction keys as [|a keys IH]; intros t Hb.
  - simpl. split; [exact Hb|]. intros x. tauto.
  - unfold insert_all in *. cbn [fold_left].
    destruct (IH _ (insert_bst t a Hb)) as (H1 & H2).
    split; [exact H1|]. intros x. rewrite H2, insert_mem by exact Hb.
    simpl. intuition auto.
Qed.

(** X25. Any keys, repeated or not, inserted one after the other into an
    empty BSTree and into an empty AVLTree: the two trees have the same
    in-order sequence, strictly ascending and made of the distinct keys
    inserted, and answer every [get] alike. *)
Theorem bst_avl_same_inorder (keys : list T) :
  exists t,
    AVLTree.insert_all Leaf keys = Some t /\
    inorder t = inorder (insert_all (Leaf : tree unit) keys) /\
    StronglySorted Z.lt (inorder t) /\
    (forall x, In x (inorder t) <-> In x keys) /\
    (forall key, get t key = get (insert_all (Leaf : tree unit) keys) key).
Proof.
  destruct (avl_insert_all_inv keys Leaf Logic.I Logic.I)
    as (t & E & _ & Hb & Hm).
  destruct (insert_all_mem keys (Leaf : tree unit) Logic.I) as (Hb' & Hm').
  assert (Hi : inorder t = inorder (insert_all (Leaf : tree unit) keys)).
  { apply sorted_same_elements; [apply bst_sorted, Hb|apply bst_sorted, Hb'|].
    intros x. rewrite Hm, Hm'. reflexivity. }
  exists t. split; [exact E|]. split; [exact Hi|].
  split; [apply bst_sorted, Hb|]. split.
  - intros x. rewrite Hm. cbn. tauto.
  - intros key.
    destruct (in_dec Z.eq_dec key (inorder t)) as [Hin|Hin].
    + rewrite !get_present; auto. rewrite <- Hi. exact Hin.
    + rewrite !get_absent; auto. rewrite <- Hi. exact Hin.
Qed.





End BSTvsAVL.

(** ** BSTree: how an update changes the height *)
Section BSTHeight.
Context {I : Type} {NK : NodeKind I}.
Implicit Types (t l r s : tree I) (k key : T).
Import BSTree.

Lemma insert_height t key :
  height t <= height (snd (insert t key)) <= height t + 1.
Proof.
  induction t as [|l IHl k i r IHr]; [cbn; lia|].
  cbn [insert]. destruct (key <? k); [|destruct (key >? k)].
  - destruct (insert l key) as [b l']. cbn [snd height] in *. lia.
  - destruct (insert r key) as [b r']. cbn [snd height] in *. lia.
  - cbn [snd]. lia.
Qed.

(** Replacing the node of the greatest key by its left child does not make
    a tree higher. *)
Lemma height_unlink_max t :
  height (set_findMax t (left_of (findMax t))) <= height t.
Proof.
  induction t as [|l _ k i r IH]; [cbn; lia|].
  destruct r as [|rl rk ri rr].
  - cbn [findMax set_findMax left_of height]. pose proof (height_nonneg l). lia.
  - rewrite findMax_step, set_findMax_step.
    remember (Node rl rk ri rr) as r0. cbn [height]. lia.
Qed.

Lemma removeByCopy_height t key :
  height (snd (removeByCopy t key)) <= height t.
Proof.
  induction t as [|l IHl k i r IHr]; [cbn; lia|].
  cbn [removeByCopy]. destruct (k >? key); [|destruct (k <? key)].
  - destruct (removeByCopy l key) as [b l']. cbn [snd height] in *. lia.
  - destruct (removeByCopy r key) as [b r']. cbn [snd height] in *. lia.
  - destruct l as [|ll lk li lr].
    + cbn [snd height]. pose proof (height_nonneg r). lia.
    + pose proof (height_unlink_max (Node ll lk li lr)) as H.
      destruct (findMax (Node ll lk li lr)) as [|ml mk mi mr].
      * cbn [snd]. lia.
      * cbn [left_of] in H. remember (Node ll lk li lr) as l0.
        cbn [snd height]. lia.
Qed.

End BSTHeight.

(** X27. [insert] of BSTree makes the tree higher by at most one level and
    never lower; [remove] by copy never makes it higher. [remove] by fusion
    can: after the insertion of 3, 1, 2, 4, 5 the tree has height 3, and
    after the removal of 3 by fusion it has height 4. *)
Theorem bst_height_after_update :
  (forall (t : tree unit) (key : T),
     height t <= height (snd (BSTree.insert t key)) <= height t + 1 /\
     height (snd (BSTree.remove_mode t key COPY)) <= height t /\
     height (snd (BSTree.remove t key)) <= height t) /\
  (let t : tree unit := BSTree.insert_all Leaf [3; 1; 2; 4; 5] in
   height t = 3 /\
   height (snd (BSTree.remove_mode t 3 FUSION)) = 4 /\
   height (snd (BSTree.remove_mode t 3 COPY)) = 3).
Proof.
  split.
  - intros t key. split; [apply insert_height|].
    split; apply removeByCopy_height.
  - cbv zeta. repeat split; reflexivity.
Qed.
